(** * AppSyncApi: key handling, registries and permission propagation

    A shallow embedding of [packages/resources/src/AppSyncApi.ts].

    Strings are [String.string], sequences of code units below 256; on
    those the JavaScript class [\s] is the set {9,10,11,12,13,32,160}.
    The four registries of the construct ([functionsByDsKey],
    [dataSourcesByDsKey], [dsKeysByResKey], [resolversByResKey]) are plain
    JavaScript objects created as [{}] and used as dictionaries; they are
    modelled as stdpp [gmap]s over their own keys, and a read [obj[key]]
    also sees the members inherited from [Object.prototype] ([js_get]). *)

From Stdlib Require Import String Ascii.
From stdpp Require Import base gmap strings list fin_maps sorting.

Local Open Scope string_scope.

(* ------------------------------------------------------------------ *)
(** ** Strings: [split], [join], [indexOf] *)

Definition is_ws (c : ascii) : bool :=
  let n := nat_of_ascii c in
  (Nat.leb 9 n && Nat.leb n 13) || Nat.eqb n 32 || Nat.eqb n 160.

Definition is_space (c : ascii) : bool := Nat.eqb (nat_of_ascii c) 32.

(** Prepend a code unit to the first piece of a split. *)
Definition prepend (c : ascii) (l : list string) : list string :=
  match l with
  | [] => [String c EmptyString]
  | w :: ws => String c w :: ws
  end.

(** [s.split(" ")]: the pieces between single spaces. *)
Fixpoint split_sp (s : string) : list string :=
  match s with
  | EmptyString => [EmptyString]
  | String c s' =>
      if is_space c then EmptyString :: split_sp s' else prepend c (split_sp s')
  end.

(** [s.split(/\s+/)]: the pieces between maximal runs of whitespace; a
    leading (trailing) run yields an empty first (last) piece. *)
Fixpoint split_ws (s : string) : list string :=
  match s with
  | EmptyString => [EmptyString]
  | String c s' =>
      if is_ws c then
        match s' with
        | String c' _ => if is_ws c' then split_ws s' else EmptyString :: split_ws s'
        | EmptyString => EmptyString :: split_ws s'
        end
      else prepend c (split_ws s')
  end.

(** [l.join(" ")]. *)
Definition join_sp (l : list string) : string := String.concat " " l.

(** [s.indexOf(".") === -1]. *)
Fixpoint no_dot (s : string) : bool :=
  match s with
  | EmptyString => true
  | String c s' => negb (Ascii.eqb c ".") && no_dot s'
  end.

(* ------------------------------------------------------------------ *)
(** ** Pure helpers of the construct *)

(** [normalizeResolverKey]: [resolverKey.split(/\s+/).join(" ")]. *)
Definition normalizeResolverKey (resolverKey : string) : string :=
  join_sp (split_ws resolverKey).

(** [buildDataSourceKey]: [`LambdaDS_${typeName}_${fieldName}`]. *)
Definition buildDataSourceKey (typeName fieldName : string) : string :=
  "LambdaDS_" ++ typeName ++ "_" ++ fieldName.

(** A [MappingTemplate] value: the [file] and [inline] fields an object of
    type [MappingTemplateFile | MappingTemplateInline] may carry. *)
Record MappingTemplate := {
  mt_file : option string;
  mt_inline : option string
}.

(** The artifacts of [appsync.MappingTemplate]: [fromFile path] and
    [fromString text] ([text] may be [undefined]). *)
Inductive Artifact :=
| FromFile (path : string)
| FromString (text : option string).

(** JavaScript truthiness of an optional string. *)
Definition truthy (o : option string) : bool :=
  match o with
  | Some s => negb (String.eqb s "")
  | None => false
  end.

(* ------------------------------------------------------------------ *)
(** ** Property reads on objects created as [{}] *)

(** The names an object literal [{}] inherits from [Object.prototype]. *)
Definition object_prototype_members : list string :=
  ["__proto__"; "__defineGetter__"; "__defineSetter__"; "__lookupGetter__";
   "__lookupSetter__"; "constructor"; "hasOwnProperty"; "isPrototypeOf";
   "propertyIsEnumerable"; "toLocaleString"; "toString"; "valueOf"].

(** The value of a property read [obj[key]]: an own property, the member
    [name] inherited from [Object.prototype] (a function, or
    [Object.prototype] itself for "__proto__"; truthy in every case), or
    [undefined]. *)
Inductive JsRead (A : Type) :=
| JOwn (a : A)
| JProto (name : string)
| JUndefined.
Arguments JOwn {A} a.
Arguments JProto {A} name.
Arguments JUndefined {A}.

(** [obj[key]] on an object created as [{}] whose own properties are [m]. *)
Definition js_get {A} (m : gmap string A) (key : string) : JsRead A :=
  match m !! key with
  | Some a => JOwn a
  | None => if bool_decide (key ∈ object_prototype_members) then JProto key else JUndefined
  end.

(** JavaScript truthiness of a read whose own values are objects. *)
Definition js_truthy {A} (v : JsRead A) : bool :=
  match v with JUndefined => false | _ => true end.

(** The own value of a read, if any. *)
Definition js_own {A} (v : JsRead A) : option A :=
  match v with JOwn a => Some a | _ => None end.

(** The property name [obj[v]] uses for a value [v] read from a
    string-valued object: the string itself, "undefined", or the text
    [String(member)] of an inherited member. *)
Definition js_to_key (v : JsRead string) : string :=
  match v with
  | JOwn k => k
  | JUndefined => "undefined"
  | JProto name =>
      if String.eqb name "__proto__" then "[object Object]"
      else "function " ++ name ++ "() { [native code] }"
  end.

(* ------------------------------------------------------------------ *)
(** ** Declarations handed to the construct *)

(** A permission descriptor ([Permissions]), opaque to the construct. *)
Definition Permissions := string.

(** A handle of a compute function ([Function] instance). *)
Definition FnHandle := nat.

(** A [FunctionDefinition]: a handler path, an existing [Function]
    instance, or a [FunctionProps] object (only its permissions matter
    here). *)
Inductive FunctionDefinition :=
| FDHandler (handler : string)
| FDInstance (fn : FnHandle)
| FDProps (permissions : list Permissions).

(** [if (x.function)]: the [function] field when it is truthy; an empty
    handler path is falsy, an instance or a props object is truthy. *)
Definition truthy_function (fd : option FunctionDefinition) : option FunctionDefinition :=
  match fd with
  | Some (FDHandler h) => if String.eqb h "" then None else Some (FDHandler h)
  | Some d => Some d
  | None => None
  end.

(** [defaults.function]: [Some] stands for a non-empty props object. *)
Record FunctionProps := { fp_permissions : list Permissions }.

(** The props of [cdk.resolver] that matter here: the two mapping
    templates, each absent ([None]) or present with a value that may be
    [undefined]; whether a non-empty [pipelineConfig] is given; whether
    the [cachingConfig] is one the [Resolver] constructor refuses (a TTL
    outside 1..3600 seconds, or a caching key outside the allowed
    prefixes). *)
Record ResolverCdk := {
  rc_requestMappingTemplate : option (option Artifact);
  rc_responseMappingTemplate : option (option Artifact);
  rc_pipelineConfig : bool;
  rc_cachingConfigRefused : bool
}.

(** The fields of a declaration object the construct inspects
    ([AppSyncApi*DataSourceProps], [AppSyncApiResolverProps], or a
    [FunctionProps] object used as an inline definition).  [o_table] is
    [table || cdk.dataSource.table], [o_rds] is
    [rds || cdk.dataSource.serverlessCluster], [o_cdkResolver] is
    [cdk?.resolver]. *)
Record Obj := {
  o_function : option FunctionDefinition;
  o_dataSource : option string;
  o_table : bool;
  o_rds : bool;
  o_endpoint : option string;
  o_requestMapping : option MappingTemplate;
  o_responseMapping : option MappingTemplate;
  o_cdkResolver : option ResolverCdk;
  o_permissions : list Permissions
}.

(** A declaration value: a string, a [Function] instance or an object. *)
Inductive Value :=
| VString (s : string)
| VFunction (fn : FnHandle)
| VObject (o : Obj).

Definition v_function (v : Value) : option FunctionDefinition :=
  match v with VObject o => o_function o | _ => None end.
Definition v_dataSource (v : Value) : option string :=
  match v with VObject o => o_dataSource o | _ => None end.
Definition v_table (v : Value) : bool :=
  match v with VObject o => o_table o | _ => false end.
Definition v_rds (v : Value) : bool :=
  match v with VObject o => o_rds o | _ => false end.
Definition v_endpoint (v : Value) : option string :=
  match v with VObject o => o_endpoint o | _ => None end.
Definition v_requestMapping (v : Value) : option MappingTemplate :=
  match v with VObject o => o_requestMapping o | _ => None end.
Definition v_responseMapping (v : Value) : option MappingTemplate :=
  match v with VObject o => o_responseMapping o | _ => None end.
Definition v_cdkResolver (v : Value) : option ResolverCdk :=
  match v with VObject o => o_cdkResolver o | _ => None end.

(** [value as FunctionInlineDefinition]. *)
Definition as_function_definition (v : Value) : FunctionDefinition :=
  match v with
  | VString s => FDHandler s
  | VFunction f => FDInstance f
  | VObject o => FDProps (o_permissions o)
  end.

(* ------------------------------------------------------------------ *)
(** ** Handles returned by the resource provider *)

Inductive DsKind :=
| DSLambda (fn : FnHandle)
| DSDynamoDb
| DSRds
| DSHttp.

Record DataSource := { ds_id : nat; ds_key : string; ds_kind : DsKind }.

#[global] Instance DsKind_eq_dec : EqDecision DsKind.
Proof. solve_decision. Defined.
#[global] Instance DataSource_eq_dec : EqDecision DataSource.
Proof.
  intros [i1 k1 d1] [i2 k2 d2].
  refine (cast_if_and3 (decide (i1 = i2)) (decide (k1 = k2)) (decide (d1 = d2)));
    abstract (try (subst; reflexivity); intros E; injection E; intros; contradiction).
Defined.

Record Resolver := {
  res_id : nat;
  res_dataSource : option DataSource;
  res_typeName : string;
  res_fieldName : string;
  res_request : option Artifact;
  res_response : option Artifact
}.

(** The construct tree, the functions' permission records and the file
    system: every construct is a [(scope, id)] pair, ids are unique among
    siblings (the rule of the [constructs] library), handles are allocated
    from [w_next], [w_grants] lists the permissions attached to each
    function in order, and [w_files] holds the paths of the readable
    files. *)
Record World := {
  w_next : nat;
  w_constructs : gset (string * string);
  w_grants : gmap FnHandle (list Permissions);
  w_files : gset string
}.

(** The fields of an [AppSyncApi] instance. [api_scope] is the scope of
    [cdk.graphqlApi], under which data sources and resolvers are created. *)
Record Api := {
  functionsByDsKey : gmap string FnHandle;
  dataSourcesByDsKey : gmap string DataSource;
  resolversByResKey : gmap string Resolver;
  dsKeysByResKey : gmap string string;
  permissionsAttachedForAllFunctions : list Permissions;
  defaults_function : option FunctionProps;
  api_scope : string;
  world : World
}.

Inductive Error :=
| EConstructExists (scope id : string)
| EConflictingDefaults (id : string)
| EInvalidResolver (resKey : string)
| EInvalidField (resKey : string)
| EDataSourceMissing (resKey dsKey : string)
| EFunctionMissing (key : string)
| EEmptyId (scope : string)
| ETemplateNotFound (path : string)
| EPipelineWithDataSource
| ECachingConfig
| ETypeError.

(* ------------------------------------------------------------------ *)
(** ** Exceptions over mutable state

    A thrown error keeps every mutation made before the throw, as in
    JavaScript. *)

Definition M (A : Type) := Api -> (Error + A) * Api.

Definition ret {A} (a : A) : M A := fun s => (inr a, s).
Definition throw {A} (e : Error) : M A := fun s => (inl e, s).
Definition bind {A B} (m : M A) (k : A -> M B) : M B :=
  fun s => match m s with
           | (inl e, s') => (inl e, s')
           | (inr a, s') => k a s'
           end.
Definition get : M Api := fun s => (inr s, s).
Definition modify (f : Api -> Api) : M unit := fun s => (inr tt, f s).

Declare Scope m_scope.
Notation "x <- m ;; k" := (bind m (fun x => k))
  (at level 100, m at next level, right associativity) : m_scope.
Notation "m ;; k" := (bind m (fun _ => k))
  (at level 100, right associativity) : m_scope.
Local Open Scope m_scope.

Fixpoint mapM_ {A} (f : A -> M unit) (l : list A) : M unit :=
  match l with
  | [] => ret tt
  | x :: l' => f x ;; mapM_ f l'
  end.

(** Field setters. *)
Definition set_world (w : World) (s : Api) : Api :=
  {| functionsByDsKey := functionsByDsKey s; dataSourcesByDsKey := dataSourcesByDsKey s;
     resolversByResKey := resolversByResKey s; dsKeysByResKey := dsKeysByResKey s;
     permissionsAttachedForAllFunctions := permissionsAttachedForAllFunctions s;
     defaults_function := defaults_function s; api_scope := api_scope s; world := w |}.
Definition set_functions (m : gmap string FnHandle) (s : Api) : Api :=
  {| functionsByDsKey := m; dataSourcesByDsKey := dataSourcesByDsKey s;
     resolversByResKey := resolversByResKey s; dsKeysByResKey := dsKeysByResKey s;
     permissionsAttachedForAllFunctions := permissionsAttachedForAllFunctions s;
     defaults_function := defaults_function s; api_scope := api_scope s; world := world s |}.
Definition set_dataSources (m : gmap string DataSource) (s : Api) : Api :=
  {| functionsByDsKey := functionsByDsKey s; dataSourcesByDsKey := m;
     resolversByResKey := resolversByResKey s; dsKeysByResKey := dsKeysByResKey s;
     permissionsAttachedForAllFunctions := permissionsAttachedForAllFunctions s;
     defaults_function := defaults_function s; api_scope := api_scope s; world := world s |}.
Definition set_resolvers (m : gmap string Resolver) (s : Api) : Api :=
  {| functionsByDsKey := functionsByDsKey s; dataSourcesByDsKey := dataSourcesByDsKey s;
     resolversByResKey := m; dsKeysByResKey := dsKeysByResKey s;
     permissionsAttachedForAllFunctions := permissionsAttachedForAllFunctions s;
     defaults_function := defaults_function s; api_scope := api_scope s; world := world s |}.
Definition set_dsKeys (m : gmap string string) (s : Api) : Api :=
  {| functionsByDsKey := functionsByDsKey s; dataSourcesByDsKey := dataSourcesByDsKey s;
     resolversByResKey := resolversByResKey s; dsKeysByResKey := m;
     permissionsAttachedForAllFunctions := permissionsAttachedForAllFunctions s;
     defaults_function := defaults_function s; api_scope := api_scope s; world := world s |}.
Definition set_permissions (l : list Permissions) (s : Api) : Api :=
  {| functionsByDsKey := functionsByDsKey s; dataSourcesByDsKey := dataSourcesByDsKey s;
     resolversByResKey := resolversByResKey s; dsKeysByResKey := dsKeysByResKey s;
     permissionsAttachedForAllFunctions := l;
     defaults_function := defaults_function s; api_scope := api_scope s; world := world s |}.

(* ------------------------------------------------------------------ *)
(** ** Resource provider *)

Definition w_add_construct (c : string * string) (w : World) : World :=
  {| w_next := w_next w; w_constructs := {[c]} ∪ w_constructs w; w_grants := w_grants w;
     w_files := w_files w |}.
Definition w_bump (w : World) : World :=
  {| w_next := S (w_next w); w_constructs := w_constructs w; w_grants := w_grants w;
     w_files := w_files w |}.
Definition w_set_grants (f : FnHandle) (l : list Permissions) (w : World) : World :=
  {| w_next := w_next w; w_constructs := w_constructs w; w_grants := <[f := l]> (w_grants w);
     w_files := w_files w |}.

(** [sanitizeId] of the [constructs] library: every path separator "/"
    becomes "--". *)
Fixpoint sanitizeId (id : string) : string :=
  match id with
  | EmptyString => EmptyString
  | String c rest => if Ascii.eqb c "/" then "--" ++ sanitizeId rest else String c (sanitizeId rest)
  end.

(** [new Construct(scope, id)] (the [Node] constructor of the
    [constructs] library): the id is sanitised; an empty one is refused,
    as only a root may have it; [addChild] then refuses a name for which
    [childName in this._children] holds, [_children] being an object
    created as [{}]: a name already used under [scope], or the name of an
    [Object.prototype] member. *)
Definition new_construct (scope id : string) : M unit :=
  fun s =>
    let childName := sanitizeId id in
    if String.eqb childName "" then (inl (EEmptyId scope), s)
    else if bool_decide ((scope, childName) ∈ w_constructs (world s))
            || bool_decide (childName ∈ object_prototype_members) then
      (inl (EConstructExists scope childName), s)
    else (inr tt, set_world (w_add_construct (scope, childName) (world s)) s).

(** A fresh handle. *)
Definition fresh : M nat :=
  fun s => (inr (w_next (world s)), set_world (w_bump (world s)) s).

Definition grants_of (w : World) (f : FnHandle) : list Permissions :=
  default [] (w_grants w !! f).

Definition set_grants (f : FnHandle) (l : list Permissions) : M unit :=
  modify (fun s => set_world (w_set_grants f l (world s)) s).

(** [fn.attachPermissions(permissions)]: appends to the function's record. *)
Definition fn_attachPermissions (permissions : Permissions) (f : FnHandle) : M unit :=
  s <- get ;; set_grants f (grants_of (world s) f ++ [permissions]).

(** Modelled from the spec: [Function.fromDefinition] (Function.ts, not
    under src), the [createComputeFunction] capability of the resource
    provider.  A handler path or a props object creates a new function
    construct [id] under [scope] whose permissions are the defaults'
    followed by its own; an existing [Function] is returned as is, and
    passing one while defaults are set is a conflicting configuration. *)
Definition fromDefinition (scope id : string) (definition : FunctionDefinition)
    (inheritedProps : option FunctionProps) : M FnHandle :=
  let inherited := match inheritedProps with Some p => fp_permissions p | None => [] end in
  match definition with
  | FDInstance f =>
      match inheritedProps with
      | Some _ => throw (EConflictingDefaults id)
      | None => ret f
      end
  | FDHandler _ =>
      new_construct scope id ;; n <- fresh ;; set_grants n inherited ;; ret n
  | FDProps own =>
      new_construct scope id ;; n <- fresh ;; set_grants n (inherited ++ own) ;; ret n
  end.

(** [graphqlApi.add{Lambda,DynamoDb,Rds,Http}DataSource(dsKey, ...)]: a
    data-source construct named [dsKey] under the API. *)
Definition addKindDataSource (dsKey : string) (kind : DsKind) : M DataSource :=
  s <- get ;;
  new_construct (api_scope s) dsKey ;;
  n <- fresh ;;
  ret {| ds_id := n; ds_key := dsKey; ds_kind := kind |}.

Definition addLambdaDataSource (dsKey : string) (lambda : FnHandle) : M DataSource :=
  addKindDataSource dsKey (DSLambda lambda).

(** [appsync.MappingTemplate.fromFile(path)]: the file is read at once
    ([readFileSync]), which throws when [path] is not a readable file. *)
Definition mappingTemplate_fromFile (path : string) : M Artifact :=
  fun s =>
    if bool_decide (path ∈ w_files (world s)) then (inr (FromFile path), s)
    else (inl (ETemplateNotFound path), s).

(** The props of a resolver besides [dataSource], [typeName] and
    [fieldName]: the two mapping templates and the rest of [cdk.resolver]. *)
Record ResolverProps := {
  rp_requestMappingTemplate : option Artifact;
  rp_responseMappingTemplate : option Artifact;
  rp_cdk : option ResolverCdk
}.

(** [resolverProps = {}]. *)
Definition no_resolver_props : ResolverProps :=
  {| rp_requestMappingTemplate := None; rp_responseMappingTemplate := None; rp_cdk := None |}.

(** [{requestMappingTemplate: request, responseMappingTemplate: response,
    ...resValue.cdk?.resolver}]: a template key present in [cdk.resolver]
    replaces the built template. *)
Definition spread_resolver_props (request response : option Artifact)
    (cdk : option ResolverCdk) : ResolverProps :=
  match cdk with
  | None => {| rp_requestMappingTemplate := request; rp_responseMappingTemplate := response;
               rp_cdk := None |}
  | Some c =>
      {| rp_requestMappingTemplate := default request (rc_requestMappingTemplate c);
         rp_responseMappingTemplate := default response (rc_responseMappingTemplate c);
         rp_cdk := Some c |}
  end.

(** The checks of the [Resolver] constructor once its construct is added:
    a pipeline resolver may not have a data source, the caching config
    must be valid, and [this.resolver.addDependsOn(props.dataSource.ds)]
    throws a [TypeError] when the data source is an inherited
    [Object.prototype] member, which has no [ds]. *)
Definition resolver_error (dataSource : JsRead DataSource) (cdk : option ResolverCdk)
    : option Error :=
  let pipeline := match cdk with Some c => rc_pipelineConfig c | None => false end in
  let cachingRefused := match cdk with Some c => rc_cachingConfigRefused c | None => false end in
  if pipeline && js_truthy dataSource then Some EPipelineWithDataSource
  else if cachingRefused then Some ECachingConfig
  else match dataSource with JProto _ => Some ETypeError | _ => None end.

(** [graphqlApi.createResolver({dataSource, typeName, fieldName, ...props})]:
    [new Resolver(api, `${typeName}${fieldName}Resolver`, ...)]; the
    construct is added before the constructor's checks run. *)
Definition createResolver (dataSource : JsRead DataSource) (typeName fieldName : string)
    (props : ResolverProps) : M Resolver :=
  s <- get ;;
  new_construct (api_scope s) (typeName ++ fieldName ++ "Resolver") ;;
  match resolver_error dataSource (rp_cdk props) with
  | Some e => throw e
  | None =>
      n <- fresh ;;
      ret {| res_id := n; res_dataSource := js_own dataSource; res_typeName := typeName;
             res_fieldName := fieldName; res_request := rp_requestMappingTemplate props;
             res_response := rp_responseMappingTemplate props |}
  end.

(* ------------------------------------------------------------------ *)
(** ** [buildMappingTemplate] *)

(** [buildMappingTemplate]: nothing in, nothing out; a truthy [file]
    wins and is read at once, any other object is read as
    [MappingTemplateInline]. *)
Definition buildMappingTemplate (mapping : option MappingTemplate) : M (option Artifact) :=
  match mapping with
  | None => ret None
  | Some m =>
      match mt_file m with
      | Some f =>
          if truthy (Some f) then (a <- mappingTemplate_fromFile f ;; ret (Some a))
          else ret (Some (FromString (mt_inline m)))
      | None => ret (Some (FromString (mt_inline m)))
      end
  end.

(* ------------------------------------------------------------------ *)
(** ** [addDataSource] *)

Definition addDataSource (scope dsKey : string) (dsValue : Value) : M (option FnHandle) :=
  s <- get ;;
  created <-
    match truthy_function (v_function dsValue) with
    | Some fd =>
        (* Lambda ds *)
        l <- fromDefinition scope ("Lambda_" ++ dsKey) fd (defaults_function s) ;;
        d <- addLambdaDataSource dsKey l ;;
        ret (d, Some l)
    | None =>
        if v_table dsValue then
          d <- addKindDataSource dsKey DSDynamoDb ;; ret (d, None)
        else if v_rds dsValue then
          d <- addKindDataSource dsKey DSRds ;; ret (d, None)
        else if truthy (v_endpoint dsValue) then
          d <- addKindDataSource dsKey DSHttp ;; ret (d, None)
        else
          (* Lambda function *)
          l <- fromDefinition scope ("Lambda_" ++ dsKey)
                 (as_function_definition dsValue) (defaults_function s) ;;
          d <- addLambdaDataSource dsKey l ;;
          ret (d, Some l)
    end ;;
  let '(dataSource, lambda) := created in
  modify (fun s => set_dataSources (<[dsKey := dataSource]> (dataSourcesByDsKey s)) s) ;;
  match lambda with
  | Some l =>
      modify (fun s => set_functions (<[dsKey := l]> (functionsByDsKey s)) s) ;;
      ret (Some l)
  | None => ret None
  end.

(* ------------------------------------------------------------------ *)
(** ** [addResolver] *)

(** The outcome of the data-source part of [addResolver]: bound to the
    value read from the data-source registry (which may be [undefined] or
    an inherited member), or a new lambda with the data source created
    for it. *)
Inductive Binding :=
| BExisting (dataSource : JsRead DataSource)
| BLambda (lambda : FnHandle) (dataSource : DataSource).

Definition binding_dataSource (b : Binding) : JsRead DataSource :=
  match b with BExisting d => d | BLambda _ d => JOwn d end.

Definition addResolver (scope resKey0 : string) (resValue : Value) : M (option FnHandle) :=
  (* Normalize resKey *)
  let resKey := normalizeResolverKey resKey0 in
  (* Get type and field *)
  match split_sp resKey with
  | [typeName; fieldName] =>
    if String.eqb fieldName "" then throw (EInvalidField resKey) else
    s <- get ;;
    bound <-
      match resValue with
      | VString str =>
          if bool_decide (str ∈ dom (dataSourcesByDsKey s)) then
            (* DataSource key *)
            ret (BExisting (js_get (dataSourcesByDsKey s) str), str, no_resolver_props)
          else if no_dot str then
            throw (EDataSourceMissing resKey str)
          else
            (* Lambda function *)
            l <- fromDefinition scope ("Lambda_" ++ typeName ++ "_" ++ fieldName)
                   (FDHandler str) (defaults_function s) ;;
            let dataSourceKey := buildDataSourceKey typeName fieldName in
            d <- addLambdaDataSource dataSourceKey l ;;
            ret (BLambda l d, dataSourceKey, no_resolver_props)
      | _ =>
          match v_function resValue with
          | Some fd =>
              (* Lambda resolver *)
              l <- fromDefinition scope ("Lambda_" ++ typeName ++ "_" ++ fieldName)
                     fd (defaults_function s) ;;
              let dataSourceKey := buildDataSourceKey typeName fieldName in
              d <- addLambdaDataSource dataSourceKey l ;;
              request <- buildMappingTemplate (v_requestMapping resValue) ;;
              response <- buildMappingTemplate (v_responseMapping resValue) ;;
              ret (BLambda l d, dataSourceKey,
                   spread_resolver_props request response (v_cdkResolver resValue))
          | None =>
              match v_dataSource resValue with
              | Some dataSourceKey =>
                  (* DataSource resolver *)
                  let dataSource := js_get (dataSourcesByDsKey s) dataSourceKey in
                  request <- buildMappingTemplate (v_requestMapping resValue) ;;
                  response <- buildMappingTemplate (v_responseMapping resValue) ;;
                  ret (BExisting dataSource, dataSourceKey,
                       spread_resolver_props request response (v_cdkResolver resValue))
              | None =>
                  (* Lambda function *)
                  l <- fromDefinition scope ("Lambda_" ++ typeName ++ "_" ++ fieldName)
                         (as_function_definition resValue) (defaults_function s) ;;
                  let dataSourceKey := buildDataSourceKey typeName fieldName in
                  d <- addLambdaDataSource dataSourceKey l ;;
                  ret (BLambda l d, dataSourceKey, no_resolver_props)
              end
          end
      end ;;
    let '(binding, dataSourceKey, resolverProps) := bound in
    (* Store new data source created *)
    match binding with
    | BLambda l d =>
        modify (fun s => set_dataSources (<[dataSourceKey := d]> (dataSourcesByDsKey s)) s) ;;
        modify (fun s => set_functions (<[dataSourceKey := l]> (functionsByDsKey s)) s)
    | BExisting _ => ret tt
    end ;;
    modify (fun s => set_dsKeys (<[resKey := dataSourceKey]> (dsKeysByResKey s)) s) ;;
    (* Create resolver *)
    resolver <- createResolver (binding_dataSource binding) typeName fieldName resolverProps ;;
    modify (fun s => set_resolvers (<[resKey := resolver]> (resolversByResKey s)) s) ;;
    ret (match binding with BLambda l _ => Some l | BExisting _ => None end)
  | _ => throw (EInvalidResolver resKey)
  end.

(* ------------------------------------------------------------------ *)
(** ** Public operations *)

(** [this.permissionsAttachedForAllFunctions.forEach(p => fn.attachPermissions(p))]. *)
Definition attachExisting (fn : FnHandle) : M unit :=
  s <- get ;; mapM_ (fun p => fn_attachPermissions p fn) (permissionsAttachedForAllFunctions s).

(** [addDataSources]; the batch is given in [Object.keys] order. *)
Fixpoint addDataSources (scope : string) (dataSources : list (string * Value)) : M unit :=
  match dataSources with
  | [] => ret tt
  | (key, v) :: rest =>
      fn <- addDataSource scope key v ;;
      match fn with Some f => attachExisting f | None => ret tt end ;;
      addDataSources scope rest
  end.

(** [addResolvers]. *)
Fixpoint addResolvers (scope : string) (resolvers : list (string * Value)) : M unit :=
  match resolvers with
  | [] => ret tt
  | (key, v) :: rest =>
      fn <- addResolver scope key v ;;
      match fn with Some f => attachExisting f | None => ret tt end ;;
      addResolvers scope rest
  end.

(** [getFunction]: a falsy first read falls back to the resolver-key
    index, whose read is used as a property name as it is. *)
Definition getFunction (s : Api) (key : string) : JsRead FnHandle :=
  match js_get (functionsByDsKey s) key with
  | JUndefined =>
      let resKey := normalizeResolverKey key in
      let dsKey := js_get (dsKeysByResKey s) resKey in
      js_get (functionsByDsKey s) (js_to_key dsKey)
  | fn => fn
  end.

(** [getDataSource]. *)
Definition getDataSource (s : Api) (key : string) : JsRead DataSource :=
  match js_get (dataSourcesByDsKey s) key with
  | JUndefined =>
      let resKey := normalizeResolverKey key in
      let dsKey := js_get (dsKeysByResKey s) resKey in
      js_get (dataSourcesByDsKey s) (js_to_key dsKey)
  | ds => ds
  end.

(** [getResolver]. *)
Definition getResolver (s : Api) (key : string) : JsRead Resolver :=
  js_get (resolversByResKey s) (normalizeResolverKey key).

(** [attachPermissions]: every value of [functionsByDsKey], then retain. *)
Definition attachPermissions (permissions : Permissions) : M unit :=
  s <- get ;;
  mapM_ (fun kv => fn_attachPermissions permissions kv.2) (map_to_list (functionsByDsKey s)) ;;
  modify (fun s => set_permissions (permissionsAttachedForAllFunctions s ++ [permissions]) s).

(** [attachPermissionsToDataSource]. *)
Definition attachPermissionsToDataSource (key : string) (permissions : Permissions) : M unit :=
  s <- get ;;
  match getFunction s key with
  | JUndefined => throw (EFunctionMissing key)
  | JProto _ =>
      (* [fn.attachPermissions] is not a function *)
      throw ETypeError
  | JOwn fn => fn_attachPermissions permissions fn
  end.

(** The constructor: [this] is the scope [self], [cdk.graphqlApi] lives
    in [apiScope]; data sources, then resolvers, in [Object.keys] order. *)
Definition init_api (apiScope : string) (w : World) (defaults : option FunctionProps) : Api :=
  {| functionsByDsKey := ∅; dataSourcesByDsKey := ∅; resolversByResKey := ∅;
     dsKeysByResKey := ∅; permissionsAttachedForAllFunctions := [];
     defaults_function := defaults; api_scope := apiScope; world := w |}.

Definition construct (self apiScope : string) (w : World) (defaults : option FunctionProps)
    (dataSources resolvers : list (string * Value)) : (Error + unit) * Api :=
  (mapM_ (fun kv => addDataSource self kv.1 kv.2 ;; ret tt) dataSources ;;
   mapM_ (fun kv => addResolver self kv.1 kv.2 ;; ret tt) resolvers)
    (init_api apiScope w defaults).

(** The public operations, and the states reached by successful calls. *)
Inductive Op :=
| OpAddDataSources (scope : string) (dataSources : list (string * Value))
| OpAddResolvers (scope : string) (resolvers : list (string * Value))
| OpAttachPermissions (permissions : Permissions)
| OpAttachPermissionsToDataSource (key : string) (permissions : Permissions).

Definition run_op (op : Op) : M unit :=
  match op with
  | OpAddDataSources scope l => addDataSources scope l
  | OpAddResolvers scope l => addResolvers scope l
  | OpAttachPermissions p => attachPermissions p
  | OpAttachPermissionsToDataSource k p => attachPermissionsToDataSource k p
  end.

(** The states an application can hold an API object in: the constructor
    returned, then any call was made; a call that throws leaves the object
    as it was when the exception was raised, and the caller may catch the
    exception and go on. *)
Inductive reachable : Api -> Prop :=
| reach_construct self apiScope w defaults dss rs s :
    construct self apiScope w defaults dss rs = (inr tt, s) -> reachable s
| reach_op s op r s' :
    reachable s -> run_op op s = (r, s') -> reachable s'.

(* ------------------------------------------------------------------ *)
(** ** Auxiliary definitions for the proofs *)

(** Whitespace collapsing with an explicit "inside a run" flag. *)
Fixpoint squeeze (in_ws : bool) (s : string) : string :=
  match s with
  | EmptyString => EmptyString
  | String c s' =>
      if is_ws c then
        (if in_ws then squeeze true s' else String " " (squeeze true s'))
      else String c (squeeze false s')
  end.

Fixpoint all_ws (s : string) : bool :=
  match s with
  | EmptyString => true
  | String c s' => is_ws c && all_ws s'
  end.

Fixpoint no_underscore (s : string) : bool :=
  match s with
  | EmptyString => true
  | String c s' => negb (Ascii.eqb c "_") && no_underscore s'
  end.

(** A resolver key that [addResolver] accepts. *)
Definition valid_resolver_key (key typeName fieldName : string) : Prop :=
  split_sp (normalizeResolverKey key) = [typeName; fieldName] /\ fieldName <> "".

(** The construct id of a resolver. *)
Definition resolver_id (typeName fieldName : string) : string :=
  sanitizeId (typeName ++ fieldName ++ "Resolver").

(** What a provider step may change: only the world, growing it, and
    leaving the permissions of existing handles alone. *)
Definition world_only (s s' : Api) : Prop := s' = set_world (world s') s.

Definition wgrow (w w' : World) : Prop :=
  w_constructs w ⊆ w_constructs w' /\ w_next w <= w_next w' /\
  forall f, f < w_next w -> w_grants w' !! f = w_grants w !! f.

(** Handles named by a declaration exist already ([Function] instances
    are objects created before they are passed in). *)
Definition fd_wf (n : nat) (fd : FunctionDefinition) : Prop :=
  match fd with FDInstance f => f < n | _ => True end.

Definition value_wf (n : nat) (v : Value) : Prop :=
  match v with
  | VString _ => True
  | VFunction f => f < n
  | VObject o => match o_function o with Some fd => fd_wf n fd | None => True end
  end.

(** A small app used to exercise the statements: an empty world, one data
    source [notesDS] backed by a function, and the resolver
    [Query listNotes] bound to it. *)
Definition empty_world : World :=
  {| w_next := 0; w_constructs := ∅; w_grants := ∅; w_files := ∅ |}.

Definition demo_api : Api :=
  snd (construct "App" "App/Api" empty_world None
         [("notesDS", VString "src/notes.main")]
         [("Query listNotes", VString "notesDS")]).






(** An app whose resolver key "Query foo" is also a data-source key, with
    the resolvers "Query foo" and "Query bar" bound to the data source
    [other]. *)
Definition shadow_api : Api :=
  snd (construct "App" "App/Api" empty_world None
         [("Query foo", VString "src/a.main"); ("other", VString "src/b.main")]
         [("Query foo", VString "other"); ("Query bar", VString "other")]).

(** An app with a data source under the key "undefined". *)
Definition undefined_api : Api :=
  snd (construct "App" "App/Api" empty_world None
         [("undefined", VString "src/u.main")] []).

(** An API object in a project whose only readable file is
    "getNote.req.vtl". *)
Definition template_api : Api :=
  init_api "App/Api" {| w_next := 0; w_constructs := ∅; w_grants := ∅;
                        w_files := {["getNote.req.vtl"]} |} None.

(** Why [new_construct scope cid] refuses a sanitised id [cid]: it is
    empty, or it is taken under [scope] or by an [Object.prototype]
    member. *)
Definition construct_refusal (w : World) (scope cid : string) (e : Error) : Prop :=
  (cid = "" /\ e = EEmptyId scope) \/
  (cid <> "" /\ e = EConstructExists scope cid /\
   ((scope, cid) ∈ w_constructs w \/ cid ∈ object_prototype_members)).

(** All suffixes of a string, itself included. *)
Fixpoint suffixes (s : string) : list string :=
  match s with
  | EmptyString => [EmptyString]
  | String _ rest => s :: suffixes rest
  end.

(** An app with function defaults set and one data source [notesDS]. *)
Definition defaults_api : Api :=
  snd (construct "App" "App/Api" empty_world (Some {| fp_permissions := [] |})
         [("notesDS", VString "src/notes.main")] []).

(** A data-source or function registry entry only changes for a key
    whose data-source construct (named by the key, sanitised and not
    empty) did not exist before and exists after; constructs are never
    removed. *)
Definition reg_step (s s' : Api) : Prop :=
  api_scope s' = api_scope s /\ w_constructs (world s) ⊆ w_constructs (world s') /\
  forall K, (dataSourcesByDsKey s' !! K <> dataSourcesByDsKey s !! K \/
             functionsByDsKey s' !! K <> functionsByDsKey s !! K) ->
    ((api_scope s, sanitizeId K) ∉ w_constructs (world s)) /\
    (api_scope s, sanitizeId K) ∈ w_constructs (world s') /\ sanitizeId K <> "".

(** Every key of the data-source and function registries has its
    data-source construct under the API, with a non-empty name. *)
Definition reg_inv (s : Api) : Prop :=
  forall K, K ∈ dom (dataSourcesByDsKey s) \/ K ∈ dom (functionsByDsKey s) ->
    (api_scope s, sanitizeId K) ∈ w_constructs (world s) /\ sanitizeId K <> "".

(** An app with the data sources [dsA] and [dsB] and the resolver
    "Query foo" bound to [dsA]. *)
Definition two_ds_api : Api :=
  snd (construct "App" "App/Api" empty_world None
         [("dsA", VString "src/a.main"); ("dsB", VString "src/b.main")]
         [("Query foo", VString "dsA")]).

(** Every registered function handle was allocated. *)
Definition fns_fresh (s : Api) : Prop :=
  forall K h, functionsByDsKey s !! K = Some h -> h < w_next (world s).

(** Every registered function holds the retained global permissions, in
    order, among its own. *)
Definition perms_replayed (s : Api) : Prop :=
  forall K h, functionsByDsKey s !! K = Some h ->
    permissionsAttachedForAllFunctions s `sublist_of` grants_of (world s) h.

(** Declarations of a call only name [Function] objects that exist. *)
Definition op_wf (n : nat) (op : Op) : Prop :=
  match op with
  | OpAddDataSources _ l | OpAddResolvers _ l => Forall (fun kv => value_wf n kv.2) l
  | _ => True
  end.

(** The states reached by the constructor and calls that all returned
    normally, from declarations that only name existing [Function]s. *)
Inductive reachable_ok : Api -> Prop :=
| reach_ok_construct self apiScope w defaults dss rs s :
    Forall (fun kv => value_wf (w_next w) kv.2) (dss ++ rs)%list ->
    construct self apiScope w defaults dss rs = (inr tt, s) -> reachable_ok s
| reach_ok_op s op s' :
    reachable_ok s -> op_wf (w_next (world s)) op ->
    run_op op s = (inr tt, s') -> reachable_ok s'.

(** What [addDataSource] and [addResolver] share about a call: retained
    permissions and existing permission records are untouched, and a call
    that returns a function has registered it under one key. *)
Definition call_ok (call : string -> Value -> M (option FnHandle)) : Prop :=
  forall k v s r s', call k v s = (r, s') ->
    permissionsAttachedForAllFunctions s' = permissionsAttachedForAllFunctions s /\
    wgrow (world s) (world s') /\
    forall o, r = inr o ->
      match o with
      | None => functionsByDsKey s' = functionsByDsKey s
      | Some l => exists K, functionsByDsKey s' = <[K:=l]> (functionsByDsKey s) /\
                  (value_wf (w_next (world s)) v -> l < w_next (world s'))
      end.

(** [two_ds_api] after the global grant "p1". *)
Definition granted_api : Api := snd (attachPermissions "p1" two_ds_api).

(** [granted_api] after a data source [dsC] is added. *)
Definition granted_then_added_api : Api :=
  snd (addDataSources "App" [("dsC", VString "src/c.main")] granted_api).

(** [granted_api] after re-declaring the resolver "Query foo" with a
    handler path, a call that throws. *)
Definition granted_failed_api : Api :=
  snd (addResolvers "App" [("Query foo", VString "src/x.main")] granted_api).

(** An app where one existing [Function] (handle 0) backs the data
    sources [a] and [b]. *)
Definition shared_fn_api : Api :=
  snd (construct "App" "App/Api" {| w_next := 1; w_constructs := ∅; w_grants := ∅; w_files := ∅ |} None
         [("a", VFunction 0); ("b", VFunction 0)] []).

(** A data-source object with an empty handler path as [function] and
    [table] set. *)
Definition empty_handler_table_obj : Obj :=
  {| o_function := Some (FDHandler ""); o_dataSource := None; o_table := true; o_rds := false;
     o_endpoint := None; o_requestMapping := None; o_responseMapping := None;
     o_cdkResolver := None; o_permissions := [] |}.

(** The function registry holds exactly the functions of the Lambda data
    sources, under the same keys. *)
Definition fn_ds_match_maps (fns : gmap string FnHandle) (dss : gmap string DataSource) : Prop :=
  forall K l, fns !! K = Some l <-> exists d, dss !! K = Some d /\ ds_kind d = DSLambda l.

(** [fn_ds_match_maps] on the registries of an app. *)
Definition fn_ds_match (s : Api) : Prop :=
  fn_ds_match_maps (functionsByDsKey s) (dataSourcesByDsKey s).

(** Every registered resolver sits under a normalised "typeName fieldName"
    key with a non-empty field name, has a data-source key recorded, and its
    construct exists. *)
Definition resolver_inv (s : Api) : Prop :=
  forall k res, resolversByResKey s !! k = Some res ->
    normalizeResolverKey k = k /\ split_sp k = [res_typeName res; res_fieldName res] /\
    res_fieldName res <> "" /\ k ∈ dom (dsKeysByResKey s) /\
    (api_scope s, resolver_id (res_typeName res) (res_fieldName res)) ∈ w_constructs (world s).

(** The invariant every reachable app keeps. *)
Definition api_inv (s : Api) : Prop := reg_inv s /\ fn_ds_match s /\ resolver_inv s.

(* ================================================================== *)
(** * Proofs *)

(* ------------------------------------------------------------------ *)
(** ** Resolver-key normalisation *)

Lemma split_ws_not_nil s : split_ws s <> [].
Proof.
  induction s as [|c s IH]; simpl; [congruence|].
  destruct (is_ws c).
  - destruct s as [|c' s'']; [congruence|]. destruct (is_ws c'); [exact IH | congruence].
  - destruct (split_ws s); simpl; congruence.
Qed.

Lemma join_prepend c l : l <> [] -> join_sp (prepend c l) = String c (join_sp l).
Proof. intros Hl. destruct l as [|w [|w' ws]]; [congruence | reflexivity | reflexivity]. Qed.

Lemma join_cons_empty l : l <> [] -> join_sp (EmptyString :: l) = String " " (join_sp l).
Proof. intros Hl. destruct l as [|w ws]; [congruence | reflexivity]. Qed.

Lemma squeeze_non_ws b c s : is_ws c = false -> squeeze b (String c s) = String c (squeeze false s).
Proof. intros H. simpl. rewrite H. reflexivity. Qed.

(** [split(/\s+/).join(" ")] is whitespace collapsing. *)
Lemma normalize_squeeze s : normalizeResolverKey s = squeeze false s.
Proof.
  unfold normalizeResolverKey.
  induction s as [|c s IH]; [reflexivity|].
  simpl split_ws. simpl squeeze. destruct (is_ws c) eqn:Hc.
  - destruct s as [|c' s''].
    + reflexivity.
    + destruct (is_ws c') eqn:Hc'.
      * rewrite IH. simpl. rewrite Hc'. reflexivity.
      * rewrite join_cons_empty by apply split_ws_not_nil.
        rewrite IH, !squeeze_non_ws by exact Hc'. reflexivity.
  - rewrite join_prepend by apply split_ws_not_nil. rewrite IH. reflexivity.
Qed.

Lemma squeeze_idem b s : squeeze b (squeeze b s) = squeeze b s.
Proof.
  revert b. induction s as [|c s IH]; intros b; [reflexivity|].
  simpl. destruct (is_ws c) eqn:Hc.
  - destruct b; [apply IH|]. simpl. rewrite IH. reflexivity.
  - simpl. rewrite Hc, IH. reflexivity.
Qed.

Lemma squeeze_run b w t :
  w <> "" -> all_ws w = true -> squeeze b (w ++ t) = squeeze b (String " " t).
Proof.
  revert b. induction w as [|c w IH]; intros b Hne Hall; [congruence|].
  simpl in Hall. apply andb_true_iff in Hall as [Hc Hw].
  simpl. rewrite Hc. destruct w as [|c' w'].
  - reflexivity.
  - rewrite (IH true) by (congruence || exact Hw). reflexivity.
Qed.

Lemma squeeze_app_prefix a t1 t2 :
  (forall b, squeeze b t1 = squeeze b t2) -> forall b, squeeze b (a ++ t1) = squeeze b (a ++ t2).
Proof.
  intros Ht. induction a as [|c a IH]; intros b; [apply Ht|].
  simpl. destruct (is_ws c); [destruct b|]; rewrite ?IH; reflexivity.
Qed.

(** C5 (amended): [normalizeResolverKey] replaces every maximal run of
    whitespace by one space and does not trim; it is idempotent, and
    keys that differ only in the length of a whitespace run normalise
    alike ("Query   foo" and "Query foo" both give "Query foo"). *)
Theorem normalizeResolverKey_collapse_idem :
  (forall x, normalizeResolverKey (normalizeResolverKey x) = normalizeResolverKey x) /\
  (forall a b w1 w2, w1 <> "" -> all_ws w1 = true -> w2 <> "" -> all_ws w2 = true ->
     normalizeResolverKey (a ++ w1 ++ b) = normalizeResolverKey (a ++ w2 ++ b)) /\
  normalizeResolverKey "Query   foo" = "Query foo" /\
  normalizeResolverKey "Query foo" = "Query foo" /\
  normalizeResolverKey " Query foo " = " Query foo ".
Proof.
  split; [|split; [|split; [|split]]]; try reflexivity.
  - intros x. rewrite !normalize_squeeze. apply squeeze_idem.
  - intros a b w1 w2 H1 H1w H2 H2w. rewrite !normalize_squeeze.
    apply squeeze_app_prefix. intros c.
    rewrite (squeeze_run c w1), (squeeze_run c w2) by assumption. reflexivity.
Qed.

Lemma normalizeResolverKey_collapse_idem_witness :
  normalizeResolverKey ("Query" ++ "  " ++ "foo") = normalizeResolverKey ("Query" ++ String (ascii_of_nat 9) "" ++ "foo").
Proof.
  apply (proj1 (proj2 normalizeResolverKey_collapse_idem)); first [discriminate | reflexivity].
Defined.

(** C5 counterexample: a leading and a trailing run are kept as one
    space each, so the key is not trimmed. *)
Lemma normalizeResolverKey_does_not_trim :
  normalizeResolverKey "  Query foo " = " Query foo " /\
  normalizeResolverKey "  Query foo " <> "Query foo".
Proof. split; [reflexivity | discriminate]. Qed.

(* ------------------------------------------------------------------ *)
(** ** Implicit data-source keys *)

Lemma underscore_sep_inj t1 f1 t2 f2 :
  no_underscore t1 = true -> no_underscore t2 = true ->
  (t1 ++ "_" ++ f1 = t2 ++ "_" ++ f2)%string -> t1 = t2 /\ f1 = f2.
Proof.
  revert t2. induction t1 as [|c t1 IH]; intros t2 H1 H2 Heq; destruct t2 as [|c' t2];
    cbn in Heq, H1, H2.
  - injection Heq as Heq. auto.
  - injection Heq as <- _. discriminate.
  - injection Heq as -> _. discriminate.
  - injection Heq as <- Heq.
    apply andb_true_iff in H1 as [_ H1]. apply andb_true_iff in H2 as [_ H2].
    destruct (IH t2 H1 H2 Heq) as [-> ->]. auto.
Qed.

(** C4 (amended): the derived key is a function of
    [(typeName, fieldName)] only, and distinct pairs get distinct keys
    when neither type name contains an underscore. *)
Theorem buildDataSourceKey_injective_no_underscore t1 f1 t2 f2 :
  no_underscore t1 = true -> no_underscore t2 = true ->
  buildDataSourceKey t1 f1 = buildDataSourceKey t2 f2 -> t1 = t2 /\ f1 = f2.
Proof.
  unfold buildDataSourceKey. intros H1 H2 Heq.
  simpl in Heq. repeat (injection Heq as Heq).
  apply underscore_sep_inj; assumption.
Qed.

Lemma buildDataSourceKey_injective_no_underscore_witness :
  "Query" = "Query" /\ "listNotes" = "listNotes".
Proof.
  apply (buildDataSourceKey_injective_no_underscore "Query" "listNotes" "Query" "listNotes");
    reflexivity.
Defined.

(** C4 counterexample: the resolvers "My_Type x" and "My Type_x" are both
    accepted keys with different [(typeName, fieldName)], yet derive the
    same data-source key "LambdaDS_My_Type_x". *)
Lemma buildDataSourceKey_collision :
  valid_resolver_key "My_Type x" "My_Type" "x" /\
  valid_resolver_key "My Type_x" "My" "Type_x" /\
  ("My_Type", "x") <> ("My", "Type_x") /\
  buildDataSourceKey "My_Type" "x" = buildDataSourceKey "My" "Type_x".
Proof.
  unfold valid_resolver_key.
  split; [split; [reflexivity | discriminate]|].
  split; [split; [reflexivity | discriminate]|].
  split; [discriminate | reflexivity].
Qed.

(* ------------------------------------------------------------------ *)
(** ** Mapping templates *)

(** C8 (amended): no template gives no artifact; a template with a
    truthy [file] is read from that file whether or not [inline] is also
    set: it gives [fromFile(file)] when the file is readable and throws
    the template-not-found error otherwise; any other template gives
    [fromString(inline)], with [inline] possibly [undefined]. The state is
    unchanged, and no combination of [file] and [inline] is rejected as
    such. *)
Theorem buildMappingTemplate_cases (m : MappingTemplate) (s : Api) :
  buildMappingTemplate None s = (inr None, s) /\
  (forall f, mt_file m = Some f -> f <> "" ->
     buildMappingTemplate (Some m) s =
       if bool_decide (f ∈ w_files (world s)) then (inr (Some (FromFile f)), s)
       else (inl (ETemplateNotFound f), s)) /\
  ((mt_file m = None \/ mt_file m = Some "") ->
     buildMappingTemplate (Some m) s = (inr (Some (FromString (mt_inline m))), s)).
Proof.
  split; [reflexivity | split].
  - intros f Hf Hne. simpl. rewrite Hf. unfold truthy.
    destruct (String.eqb_spec f ""); [contradiction|]. simpl.
    unfold bind, mappingTemplate_fromFile. case_bool_decide; reflexivity.
  - intros [Hf | Hf]; simpl; rewrite Hf; reflexivity.
Qed.

Lemma buildMappingTemplate_cases_witness :
  buildMappingTemplate (Some {| mt_file := Some "getNote.req.vtl"; mt_inline := None |})
    template_api = (inr (Some (FromFile "getNote.req.vtl")), template_api) /\
  buildMappingTemplate (Some {| mt_file := Some "missing.vtl"; mt_inline := None |})
    template_api = (inl (ETemplateNotFound "missing.vtl"), template_api).
Proof.
  split.
  - rewrite (proj1 (proj2 (buildMappingTemplate_cases
                             {| mt_file := Some "getNote.req.vtl"; mt_inline := None |} template_api))
               "getNote.req.vtl" eq_refl ltac:(discriminate)).
    vm_compute. reflexivity.
  - rewrite (proj1 (proj2 (buildMappingTemplate_cases
                             {| mt_file := Some "missing.vtl"; mt_inline := None |} template_api))
               "missing.vtl" eq_refl ltac:(discriminate)).
    vm_compute. reflexivity.
Defined.

(** C8 counterexample: a template with both [file] and [inline] is built
    from the file, and one with neither is built from [undefined]; no
    error in either case. *)
Lemma buildMappingTemplate_accepts_both_and_neither :
  buildMappingTemplate (Some {| mt_file := Some "getNote.req.vtl"; mt_inline := Some "{}" |})
    template_api = (inr (Some (FromFile "getNote.req.vtl")), template_api) /\
  buildMappingTemplate (Some {| mt_file := None; mt_inline := None |}) template_api =
    (inr (Some (FromString None)), template_api).
Proof. split; vm_compute; reflexivity. Qed.

(* ------------------------------------------------------------------ *)
(** ** Running monadic code symbolically *)

Lemma bind_get {B} (k : Api -> M B) s : bind get k s = k s s.
Proof. reflexivity. Qed.
Lemma bind_ret {A B} (a : A) (k : A -> M B) s : bind (ret a) k s = k a s.
Proof. reflexivity. Qed.
Lemma bind_modify {B} f (k : unit -> M B) s : bind (modify f) k s = k tt (f s).
Proof. reflexivity. Qed.
Lemma bind_throw {A B} e (k : A -> M B) s : bind (throw e) k s = (inl e, s).
Proof. reflexivity. Qed.
Lemma bind_assoc {A B C} (m : M A) (k1 : A -> M B) (k2 : B -> M C) s :
  bind (bind m k1) k2 s = bind m (fun a => bind (k1 a) k2) s.
Proof. unfold bind. destruct (m s) as [[e|a] s1]; reflexivity. Qed.

Lemma bind_inv {A B} (m : M A) (k : A -> M B) s r s' :
  bind m k s = (r, s') ->
  (exists e, m s = (inl e, s') /\ r = inl e) \/
  (exists a s1, m s = (inr a, s1) /\ k a s1 = (r, s')).
Proof.
  unfold bind. destruct (m s) as [[e|a] s1]; intros H.
  - left. injection H as <- <-. eauto.
  - right. eauto.
Qed.

Lemma bind_inr {A B} (m : M A) (k : A -> M B) s a s1 :
  m s = (inr a, s1) -> bind m k s = k a s1.
Proof. unfold bind. intros ->. reflexivity. Qed.

(** Step through [H : m s = (r, s')]: primitive steps are evaluated,
    conditionals are split, and a call [bind c k s] is split on the
    outcome of [c] (named [Hc]). *)
Ltac exec H :=
  repeat (repeat progress (rewrite ?bind_assoc, ?bind_get, ?bind_ret, ?bind_modify,
                                   ?bind_throw in H; cbv beta iota in H);
          match type of H with
          | context [if ?b then _ else _] =>
              let E := fresh "E" in destruct b eqn:E
          | bind _ _ _ = _ =>
              let Hc := fresh "Hc" in
              apply bind_inv in H;
              destruct H as [(?e & Hc & ?H) | (?a & ?s & Hc & H)]
          | ret _ _ = _ => cbv [ret] in H; injection H as ?H ?H
          | throw _ _ = _ => cbv [throw] in H; injection H as ?H ?H
          | modify _ _ = _ => cbv [modify] in H; injection H as ?H ?H
          | get _ = _ => cbv [get] in H; injection H as ?H ?H
          | (_, _) = (_, _) => injection H as ?H ?H
          end).

Lemma ret_inv {A} (a : A) s r s' : ret a s = (r, s') -> r = inr a /\ s' = s.
Proof. intros H. injection H as <- <-. auto. Qed.
Lemma throw_inv {A} e s (r : Error + A) s' : throw e s = (r, s') -> r = inl e /\ s' = s.
Proof. intros H. injection H as <- <-. auto. Qed.

(* ------------------------------------------------------------------ *)
(** ** Resource-provider steps *)

Lemma new_construct_inv sc id s r s' :
  new_construct sc id s = (r, s') ->
  (r = inr tt /\ sanitizeId id <> "" /\ ((sc, sanitizeId id) ∉ w_constructs (world s)) /\
   s' = set_world (w_add_construct (sc, sanitizeId id) (world s)) s) \/
  (s' = s /\ exists e, r = inl e /\ construct_refusal (world s) sc (sanitizeId id) e).
Proof.
  unfold new_construct, construct_refusal. cbv zeta.
  destruct (String.eqb_spec (sanitizeId id) "") as [E|E].
  - intros Heq. injection Heq as <- <-. right. split; [reflexivity|]. eauto.
  - repeat case_bool_decide; simpl; intros Heq; injection Heq as <- <-;
      first [ solve [left; auto 6]
            | right; split; [reflexivity|]; eexists; split; [reflexivity|]; right; auto 6 ].
Qed.

Lemma fresh_inv s r s' :
  fresh s = (r, s') -> r = inr (w_next (world s)) /\ s' = set_world (w_bump (world s)) s.
Proof. unfold fresh. intros Heq. injection Heq as <- <-. auto. Qed.

Lemma set_grants_inv f l s r s' :
  set_grants f l s = (r, s') -> r = inr tt /\ s' = set_world (w_set_grants f l (world s)) s.
Proof. unfold set_grants, modify. intros Heq. injection Heq as <- <-. auto. Qed.

Lemma world_set_world w s : world (set_world w s) = w.
Proof. reflexivity. Qed.

Lemma set_world_twice w1 w2 s : set_world w2 (set_world w1 s) = set_world w2 s.
Proof. reflexivity. Qed.

Ltac prim :=
  repeat first [progress subst | match goal with
  | H : new_construct _ _ _ = (_, _) |- _ =>
      apply new_construct_inv in H; destruct H as [(? & ? & ? & ?) | (? & ? & ? & ?)]; subst
  | H : fresh _ = (_, _) |- _ => apply fresh_inv in H; destruct H as [? ?]; subst
  | H : set_grants _ _ _ = (_, _) |- _ => apply set_grants_inv in H; destruct H as [? ?]; subst
  | H : inr _ = inr _ |- _ => injection H as H; subst
  | H : inl _ = inl _ |- _ => injection H as H; subst
  | H : inl _ = inr _ |- _ => discriminate H
  | H : inr _ = inl _ |- _ => discriminate H
  | H : bool_decide _ = true |- _ => apply bool_decide_eq_true in H
  | H : bool_decide _ = false |- _ => apply bool_decide_eq_false in H
  | H : String.eqb _ _ = true |- _ => apply String.eqb_eq in H
  | H : ?P, H' : ~ ?P |- _ => contradiction (H' H)
  | H : ?x <> ?x |- _ => contradiction (H eq_refl)
  end];
  cbn [world set_world w_add_construct w_bump w_set_grants
       w_next w_constructs w_grants api_scope functionsByDsKey
       dataSourcesByDsKey resolversByResKey dsKeysByResKey
       permissionsAttachedForAllFunctions defaults_function] in *.

Lemma world_only_refl s : world_only s s.
Proof. destruct s; reflexivity. Qed.

Lemma world_only_set w s : world_only s (set_world w s).
Proof. reflexivity. Qed.

(** Close the routine conjuncts of a provider-step specification. *)
Ltac frame_auto :=
  repeat match goal with
  | |- _ /\ _ => split
  | |- world_only ?s ?s => apply world_only_refl
  | |- world_only _ _ => reflexivity
  | |- forall _, _ => intros
  | H : inl _ = inr _ |- _ => discriminate H
  | H : inr _ = inr _ |- _ => injection H as H; subst
  | H : fd_wf _ (FDInstance _) |- _ => simpl in H
  | |- _ ⊆ _ => set_solver
  | |- _ <= _ => lia
  | |- _ < _ => lia
  | |- <[_ := _]> _ !! _ = _ => rewrite lookup_insert_ne by lia; reflexivity
  | |- ?x = ?x => reflexivity
  end.

Lemma wgrow_refl w : wgrow w w.
Proof. split; [set_solver | split; [lia | auto]]. Qed.

Lemma wgrow_trans w1 w2 w3 : wgrow w1 w2 -> wgrow w2 w3 -> wgrow w1 w3.
Proof.
  intros (H1 & H2 & H3) (H4 & H5 & H6). split; [set_solver | split; [lia|]].
  intros f Hf. rewrite H6 by lia. auto.
Qed.

Lemma js_get_own {A} (m : gmap string A) k a : m !! k = Some a -> js_get m k = JOwn a.
Proof. unfold js_get. intros ->. reflexivity. Qed.

Lemma js_own_get {A} (m : gmap string A) k : js_own (js_get m k) = m !! k.
Proof. unfold js_get. destruct (m !! k); [reflexivity|]. case_bool_decide; reflexivity. Qed.

Lemma js_get_undefined {A} (m : gmap string A) k :
  m !! k = None -> k ∉ object_prototype_members -> js_get m k = JUndefined.
Proof. unfold js_get. intros -> Hk. rewrite bool_decide_eq_false_2 by exact Hk. reflexivity. Qed.

Lemma js_get_dom {A} (m : gmap string A) k :
  k ∈ dom m -> exists a, m !! k = Some a /\ js_get m k = JOwn a.
Proof. rewrite elem_of_dom. intros [a Ha]. exists a. split; [exact Ha|]. apply js_get_own, Ha. Qed.

Lemma js_get_insert_eq {A} (m : gmap string A) k a : js_get (<[k:=a]> m) k = JOwn a.
Proof. apply js_get_own, lookup_insert_eq. Qed.

Lemma truthy_function_some x fd : truthy_function x = Some fd -> x = Some fd.
Proof.
  destruct x as [[h|f|own]|]; simpl; try congruence. destruct (String.eqb h ""); congruence.
Qed.



Lemma sanitizeId_app a b : sanitizeId (a ++ b) = sanitizeId a ++ sanitizeId b.
Proof.
  induction a as [|c a IH]; [reflexivity|]. simpl.
  destruct (Ascii.eqb c "/"); simpl; rewrite IH; reflexivity.
Qed.

Lemma suffixes_self x : x ∈ suffixes x.
Proof. destruct x; simpl; apply elem_of_cons; left; reflexivity. Qed.

Lemma suffixes_app_r x y z : z ∈ suffixes y -> z ∈ suffixes (x ++ y).
Proof.
  intros Hz. induction x as [|c x IH]; [exact Hz|]. simpl. apply elem_of_cons. right. exact IH.
Qed.

Lemma members_not_Resolver :
  Forall (fun m => "Resolver" ∉ suffixes m) object_prototype_members.
Proof. apply (bool_decide_eq_true_1 _). vm_compute. reflexivity. Qed.

(** A resolver's construct id is never refused for being empty or an
    [Object.prototype] member: it ends in "Resolver". *)
Lemma resolver_id_ok t f :
  resolver_id t f <> "" /\ resolver_id t f ∉ object_prototype_members.
Proof.
  assert (Hs : "Resolver" ∈ suffixes (resolver_id t f)).
  { unfold resolver_id. rewrite !sanitizeId_app.
    apply suffixes_app_r, suffixes_app_r, suffixes_self. }
  split.
  - intros He. rewrite He in Hs. simpl in Hs.
    apply list_elem_of_singleton in Hs. discriminate Hs.
  - intros Hm. pose proof members_not_Resolver as HF. rewrite Forall_forall in HF.
    exact (HF _ Hm Hs).
Qed.

(** The construct id of a function created for a data source. *)
Lemma lambda_id_ok x :
  sanitizeId ("Lambda_" ++ x) <> "" /\ sanitizeId ("Lambda_" ++ x) ∉ object_prototype_members.
Proof.
  simpl. split; [discriminate|]. intros Hm.
  repeat (apply elem_of_cons in Hm as [Hm|Hm]; [discriminate Hm|]).
  apply elem_of_nil in Hm. exact Hm.
Qed.

Lemma construct_refusal_fresh_id w sc cid e :
  construct_refusal w sc cid e -> cid <> "" -> cid ∉ object_prototype_members ->
  (sc, cid) ∈ w_constructs w /\ e = EConstructExists sc cid.
Proof. unfold construct_refusal. intros [[? ?]|(? & ? & [?|?])] Hne Hnm; tauto. Qed.

Lemma createResolver_spec ds t f props s r s' :
  createResolver ds t f props s = (r, s') ->
  world_only s s' /\ w_grants (world s') = w_grants (world s) /\
  wgrow (world s) (world s') /\
  w_constructs (world s') ⊆ {[(api_scope s, resolver_id t f)]} ∪ w_constructs (world s) /\
  ((exists res, r = inr res /\ resolver_error ds (rp_cdk props) = None /\
     res_dataSource res = js_own ds /\ res_typeName res = t /\ res_fieldName res = f /\
     res_request res = rp_requestMappingTemplate props /\
     res_response res = rp_responseMappingTemplate props /\
     ((api_scope s, resolver_id t f) ∉ w_constructs (world s)) /\
     (api_scope s, resolver_id t f) ∈ w_constructs (world s')) \/
   ((api_scope s, resolver_id t f) ∈ w_constructs (world s) /\
    r = inl (EConstructExists (api_scope s) (resolver_id t f))) \/
   (exists e, r = inl e /\ resolver_error ds (rp_cdk props) = Some e /\
    ((api_scope s, resolver_id t f) ∉ w_constructs (world s)))).
Proof.
  pose proof (resolver_id_ok t f) as [Hne Hnm].
  unfold createResolver, wgrow. unfold resolver_id in *. intros H. exec H; prim.
  - match goal with Hr : construct_refusal _ _ _ _ |- _ =>
      destruct (construct_refusal_fresh_id _ _ _ _ Hr Hne Hnm) as [Hin ->] end.
    split; [apply world_only_refl|]. split; [reflexivity|]. split; [apply wgrow_refl|].
    split; [set_solver|]. right; left; auto.
  - destruct (resolver_error ds (rp_cdk props)) as [e|] eqn:Er; exec H; prim.
    + split; [reflexivity|]. split; [reflexivity|].
      split; [split; [set_solver | split; [lia | auto]]|].
      split; [set_solver|]. right; right. eauto.
    + split; [reflexivity|]. split; [reflexivity|].
      split; [split; [set_solver | split; [lia | auto]]|].
      split; [set_solver|]. left. eexists; split; [reflexivity|].
      repeat split; auto. set_solver.
Qed.

Lemma addKindDataSource_spec key kind s r s' :
  addKindDataSource key kind s = (r, s') ->
  world_only s s' /\ w_grants (world s') = w_grants (world s) /\
  wgrow (world s) (world s') /\
  w_constructs (world s') ⊆ {[(api_scope s, sanitizeId key)]} ∪ w_constructs (world s) /\
  ((exists d, r = inr d /\ ds_kind d = kind /\
     ((api_scope s, sanitizeId key) ∉ w_constructs (world s)) /\
     (api_scope s, sanitizeId key) ∈ w_constructs (world s') /\ sanitizeId key <> "") \/
   exists e, r = inl e /\ s' = s /\ construct_refusal (world s) (api_scope s) (sanitizeId key) e).
Proof.
  unfold addKindDataSource, wgrow. intros H. exec H; prim.
  - split; [apply world_only_refl|]. split; [reflexivity|]. split; [apply wgrow_refl|].
    split; [set_solver|]. right; eauto.
  - split; [reflexivity|]. split; [reflexivity|].
    split; [split; [set_solver | split; [lia | auto]]|].
    split; [set_solver|]. left. eexists; split; [reflexivity|]. split; [reflexivity|].
    split; [assumption|]. split; [set_solver | assumption].
Qed.

Lemma fromDefinition_spec sc id fd d s r s' :
  fromDefinition sc id fd d s = (r, s') ->
  world_only s s' /\ wgrow (world s) (world s') /\
  w_constructs (world s') ⊆ {[(sc, sanitizeId id)]} ∪ w_constructs (world s) /\
  (forall l, r = inr l -> fd_wf (w_next (world s)) fd -> l < w_next (world s')) /\
  (forall e, r = inl e -> s' = s /\
     (e = EConflictingDefaults id \/ construct_refusal (world s) sc (sanitizeId id) e)).
Proof.
  unfold fromDefinition, wgrow. intros H.
  destruct fd as [h|f|own]; [| destruct d |]; exec H; prim; frame_auto.
  all: try match goal with Hx : inr _ = inl _ |- _ => discriminate Hx end.
  all: match goal with Hx : inl _ = inl _ |- _ => injection Hx as <- end; auto.
Qed.

Lemma buildMappingTemplate_inv m s r s' :
  buildMappingTemplate m s = (r, s') ->
  s' = s /\ forall e, r = inl e -> exists f, e = ETemplateNotFound f.
Proof.
  unfold buildMappingTemplate, mappingTemplate_fromFile, bind, ret.
  destruct m as [[[f|] il]|]; simpl; [destruct (String.eqb f "")|..]; simpl;
    try case_bool_decide; simpl;
    intros Heq; injection Heq as <- <-; split; try reflexivity; intros ? He;
    try discriminate He; injection He as <-; eauto.
Qed.

(** Use the specifications of the provider steps met while running. *)
Ltac provider :=
  repeat match goal with
  | H : createResolver _ _ _ _ ?s = (?r, ?s') |- _ =>
      let Hwo := fresh "Hwo" in let Hg := fresh "Hg" in let Hw := fresh "Hw" in
      let Hcs := fresh "Hcs" in let Hres := fresh "Hres" in
      apply createResolver_spec in H as (Hwo & Hg & Hw & Hcs & Hres);
      unfold world_only in Hwo; rewrite Hwo in *; clear Hwo
  | H : addKindDataSource _ _ ?s = (?r, ?s') |- _ =>
      let Hwo := fresh "Hwo" in let Hg := fresh "Hg" in let Hw := fresh "Hw" in
      let Hcs := fresh "Hcs" in let Hres := fresh "Hres" in
      apply addKindDataSource_spec in H as (Hwo & Hg & Hw & Hcs & Hres);
      unfold world_only in Hwo; rewrite Hwo in *; clear Hwo
  | H : addLambdaDataSource _ _ ?s = (?r, ?s') |- _ => unfold addLambdaDataSource in H
  | H : fromDefinition _ _ _ _ ?s = (?r, ?s') |- _ =>
      let Hwo := fresh "Hwo" in let Hw := fresh "Hw" in
      let Hcs := fresh "Hcs" in let Hres := fresh "Hres" in let Herr := fresh "Herr" in
      apply fromDefinition_spec in H as (Hwo & Hw & Hcs & Hres & Herr);
      unfold world_only in Hwo; rewrite Hwo in *; clear Hwo
  | H : buildMappingTemplate _ ?s = (?r, ?s') |- _ =>
      let Hst := fresh "Hst" in let Hbt := fresh "Hbt" in
      apply buildMappingTemplate_inv in H as (Hst & Hbt); subst s'
  end;
  cbn [world set_world set_functions set_dataSources set_resolvers set_dsKeys set_permissions
       w_next w_constructs w_grants api_scope functionsByDsKey
       dataSourcesByDsKey resolversByResKey dsKeysByResKey
       permissionsAttachedForAllFunctions defaults_function binding_dataSource] in *.

(** Start running [addResolver] on an accepted key. *)
Ltac start_addResolver H Hsplit :=
  unfold addResolver in H; cbv zeta in H; rewrite Hsplit in H; exec H; prim; provider; prim.

(* ------------------------------------------------------------------ *)
(** ** Resolvers given as a string *)

(** C1: for a resolver with an accepted key [key] declared by the string
    [str]: if [str] is a registered data-source key, the resolver is bound
    to that data source, no function, data source or function record is
    created, the only new construct is the resolver itself, and nothing is
    returned for permission replay (whatever [str] looks like, dots
    included); if [str] is not registered and has no '.', the call fails
    with the missing-data-source error before changing anything. *)
Theorem addResolver_string_value scope key t f str (s : Api) :
  valid_resolver_key key t f ->
  (str ∈ dom (dataSourcesByDsKey s) ->
     forall r s', addResolver scope key (VString str) s = (r, s') ->
       functionsByDsKey s' = functionsByDsKey s /\
       dataSourcesByDsKey s' = dataSourcesByDsKey s /\
       w_grants (world s') = w_grants (world s) /\
       w_constructs (world s') ⊆ {[(api_scope s, resolver_id t f)]} ∪ w_constructs (world s) /\
       dsKeysByResKey s' !! normalizeResolverKey key = Some str /\
       (r = inr None \/ exists e, r = inl e) /\
       (((api_scope s, resolver_id t f) ∉ w_constructs (world s)) ->
          r = inr None /\
          exists res, resolversByResKey s' !! normalizeResolverKey key = Some res /\
            res_dataSource res = dataSourcesByDsKey s !! str /\
            res_typeName res = t /\ res_fieldName res = f)) /\
  (str ∉ dom (dataSourcesByDsKey s) -> no_dot str = true ->
     addResolver scope key (VString str) s =
       (inl (EDataSourceMissing (normalizeResolverKey key) str), s)).
Proof.
  intros [Hsplit Hf]. split.
  - intros Hin r s' H. destruct (js_get_dom _ _ Hin) as (dd & Hdd & Hjs).
    start_addResolver H Hsplit.
    all: destruct Hres as [(res & Hr & Herr & Hds & Ht & Hf' & _) |
                           [(Hin' & Hr) | (e' & Hr & Herr & _)]]; prim;
      try (rewrite Hjs in Herr; cbn in Herr; discriminate Herr).
    all: repeat split; try set_solver; try (rewrite lookup_insert_eq; reflexivity).
    all: try (eexists; rewrite lookup_insert_eq; split; [reflexivity|]; rewrite Hds, Hjs, Hdd; auto).
  - intros Hnin Hnd. unfold addResolver. cbv zeta. rewrite Hsplit.
    destruct (String.eqb_spec f ""); [contradiction|].
    rewrite bind_get, bool_decide_eq_false_2 by exact Hnin. cbv iota.
    rewrite Hnd. reflexivity.
Qed.

Lemma addResolver_string_value_witness :
  valid_resolver_key "Mutation  addNote" "Mutation" "addNote" /\
  ("notesDS" ∈ dom (dataSourcesByDsKey demo_api)) /\
  ("otherDS" ∉ dom (dataSourcesByDsKey demo_api)) /\
  functionsByDsKey (snd (addResolver "App" "Mutation  addNote" (VString "notesDS") demo_api))
    = functionsByDsKey demo_api /\
  addResolver "App" "Mutation  addNote" (VString "otherDS") demo_api =
    (inl (EDataSourceMissing "Mutation addNote" "otherDS"), demo_api).
Proof.
  assert (Hv : valid_resolver_key "Mutation  addNote" "Mutation" "addNote")
    by (split; [vm_compute; reflexivity | discriminate]).
  assert (Hin : "notesDS" ∈ dom (dataSourcesByDsKey demo_api))
    by (apply (bool_decide_eq_true_1 (_ ∈ _)); vm_compute; reflexivity).
  assert (Hout : "otherDS" ∉ dom (dataSourcesByDsKey demo_api))
    by (apply (bool_decide_eq_false_1 (_ ∈ _)); vm_compute; reflexivity).
  destruct (addResolver_string_value "App" _ _ _ "notesDS" demo_api Hv) as [Ha _].
  destruct (addResolver_string_value "App" _ _ _ "otherDS" demo_api Hv) as [_ Hb].
  split; [exact Hv|]. split; [exact Hin|]. split; [exact Hout|]. split.
  - exact (proj1 (Ha Hin _ _ (surjective_pairing _))).
  - exact (Hb Hout eq_refl).
Defined.

(* ------------------------------------------------------------------ *)
(** ** Resolvers naming an unregistered data source *)





(* ------------------------------------------------------------------ *)
(** ** Resolver-key validation *)

(** A normalised key that does not split into two tokens is refused with
    the invalid-resolver error, and one with an empty field token with the
    invalid-field error; nothing is changed in either case. *)
Lemma addResolver_rejects_bad_keys scope key v (s : Api) :
  ((forall t f, split_sp (normalizeResolverKey key) <> [t; f]) ->
     addResolver scope key v s = (inl (EInvalidResolver (normalizeResolverKey key)), s)) /\
  (forall t, split_sp (normalizeResolverKey key) = [t; ""] ->
     addResolver scope key v s = (inl (EInvalidField (normalizeResolverKey key)), s)).
Proof.
  unfold addResolver. cbv zeta. split.
  - intros Hn. destruct (split_sp (normalizeResolverKey key)) as [|a [|b [|c l]]];
      try reflexivity. exfalso. exact (Hn a b eq_refl).
  - intros t ->. reflexivity.
Qed.

(** C6: the rejections hold for a single token ("Query"), three tokens
    ("Query a b") and an empty field token ("Query "), but a key whose
    type-name token is empty is accepted: " foo" normalises to " foo",
    splits into the tokens "" and "foo", and [addResolver] creates a
    resolver with the empty type name. *)
Theorem addResolver_accepts_empty_typeName :
  addResolver "App" "Query" (VString "notesDS") demo_api =
    (inl (EInvalidResolver "Query"), demo_api) /\
  addResolver "App" "Query a b" (VString "notesDS") demo_api =
    (inl (EInvalidResolver "Query a b"), demo_api) /\
  addResolver "App" "Query " (VString "notesDS") demo_api =
    (inl (EInvalidField "Query "), demo_api) /\
  split_sp (normalizeResolverKey " foo") = [""; "foo"] /\
  fst (addResolver "App" " foo" (VString "notesDS") demo_api) = inr None /\
  exists res, getResolver (snd (addResolver "App" " foo" (VString "notesDS") demo_api)) " foo"
                = JOwn res /\ res_typeName res = "" /\ res_fieldName res = "foo".
Proof.
  split; [apply addResolver_rejects_bad_keys; vm_compute; congruence|].
  split; [apply addResolver_rejects_bad_keys; vm_compute; congruence|].
  split.
  { replace (EInvalidField "Query ") with (EInvalidField (normalizeResolverKey "Query "))
      by reflexivity.
    apply (proj2 (addResolver_rejects_bad_keys _ _ _ _) "Query"); vm_compute; reflexivity. }
  split; [vm_compute; reflexivity|].
  split; [vm_compute; reflexivity|].
  vm_compute. eexists. split; [reflexivity|]. split; reflexivity.
Qed.

(* ------------------------------------------------------------------ *)
(** ** Lookups by data-source or resolver key *)

Lemma js_get_proto {A} (m : gmap string A) k :
  m !! k = None -> k ∈ object_prototype_members -> js_get m k = JProto k.
Proof. unfold js_get. intros -> Hk. rewrite bool_decide_eq_true_2 by exact Hk. reflexivity. Qed.

(** C3: the lookups of [getFunction] and [getDataSource]. An own key of
    the registry is returned as is, and so is a prototype name that is
    not one, as the inherited member. Any other key is normalised and
    looked up in the resolver-key index: a data-source key [K] found
    there is read from the registry; on an index miss (for a normalised
    key that is not a prototype name) the registry is read under the
    string "undefined", not skipped. *)
Theorem getFunction_getDataSource_two_hop (s : Api) key :
  (forall h, functionsByDsKey s !! key = Some h -> getFunction s key = JOwn h) /\
  (functionsByDsKey s !! key = None -> key ∈ object_prototype_members ->
     getFunction s key = JProto key) /\
  (functionsByDsKey s !! key = None -> key ∉ object_prototype_members ->
     (forall K, dsKeysByResKey s !! normalizeResolverKey key = Some K ->
        getFunction s key = js_get (functionsByDsKey s) K) /\
     (dsKeysByResKey s !! normalizeResolverKey key = None ->
      normalizeResolverKey key ∉ object_prototype_members ->
        getFunction s key = js_get (functionsByDsKey s) "undefined")) /\
  (forall d, dataSourcesByDsKey s !! key = Some d -> getDataSource s key = JOwn d) /\
  (dataSourcesByDsKey s !! key = None -> key ∈ object_prototype_members ->
     getDataSource s key = JProto key) /\
  (dataSourcesByDsKey s !! key = None -> key ∉ object_prototype_members ->
     (forall K, dsKeysByResKey s !! normalizeResolverKey key = Some K ->
        getDataSource s key = js_get (dataSourcesByDsKey s) K) /\
     (dsKeysByResKey s !! normalizeResolverKey key = None ->
      normalizeResolverKey key ∉ object_prototype_members ->
        getDataSource s key = js_get (dataSourcesByDsKey s) "undefined")).
Proof.
  unfold getFunction, getDataSource.
  repeat split; intros.
  all: repeat match goal with
    | H : ?m !! ?k = Some _ |- context [js_get ?m ?k] => rewrite (js_get_own _ _ _ H)
    | H : ?m !! ?k = None, Hm : ?k ∈ object_prototype_members |- context [js_get ?m ?k] =>
        rewrite (js_get_proto _ _ H Hm)
    | H : ?m !! ?k = None, Hm : ?k ∉ object_prototype_members |- context [js_get ?m ?k] =>
        rewrite (js_get_undefined _ _ H Hm)
    end; reflexivity.
Qed.

(** The index miss of [getFunction_getDataSource_two_hop] at work: no
    resolver "Query nothing" exists, yet [getFunction] and
    [getDataSource] find the entries registered under "undefined"; and
    "toString" finds an inherited member. *)
Lemma getFunction_index_miss_finds_undefined :
  functionsByDsKey undefined_api !! "Query nothing" = None /\
  dsKeysByResKey undefined_api !! "Query nothing" = None /\
  getFunction undefined_api "Query nothing" = js_get (functionsByDsKey undefined_api) "undefined" /\
  js_own (getFunction undefined_api "Query nothing") <> None /\
  js_own (getDataSource undefined_api "Query nothing") <> None /\
  getFunction demo_api "toString" = JProto "toString" /\
  getDataSource demo_api "toString" = JProto "toString".
Proof. vm_compute. repeat split; congruence. Qed.

(* ------------------------------------------------------------------ *)
(** ** Registry steps *)

Ltac simpl_api :=
  cbn [world set_world set_functions set_dataSources set_resolvers set_dsKeys set_permissions
       w_next w_constructs w_grants api_scope functionsByDsKey
       dataSourcesByDsKey resolversByResKey dsKeysByResKey
       permissionsAttachedForAllFunctions defaults_function] in *.

Ltac split_hyps :=
  repeat match goal with
  | H : _ /\ _ |- _ => destruct H
  | H : exists _, _ |- _ => destruct H
  | H : _ \/ _ |- _ => destruct H
  end.

(** Run [addDataSource] on a value of any shape. *)
Ltac run_addDataSource H v :=
  unfold addDataSource in H;
  destruct v as [?str|?fn|?o];
  [| | let Ho := fresh "Ho" in destruct (truthy_function (o_function o)) eqn:Ho];
  cbn [v_function v_table v_rds v_endpoint as_function_definition truthy] in H;
  try match goal with E : truthy_function (o_function _) = _ |- _ => rewrite E in H end;
  try match goal with E : truthy_function (o_function _) = Some _ |- _ =>
        pose proof (truthy_function_some _ _ E) end;
  cbn [truthy_function] in H;
  exec H; prim; provider; prim; simpl_api; split_hyps; prim.

(** Run [addResolver] on a key and a value of any shape. *)
Ltac run_addResolver_body H v :=
  destruct v as [?str|?fn|?o];
  [| | let Ho := fresh "Ho" in let Hd := fresh "Hd" in
       destruct (o_function o) eqn:Ho; [|destruct (o_dataSource o) eqn:Hd]];
  cbn [v_function v_dataSource as_function_definition] in H;
  try match goal with E : o_function _ = _ |- _ => rewrite E in H end;
  try match goal with E : o_dataSource _ = _ |- _ => rewrite E in H end;
  exec H; prim; provider; prim; simpl_api; split_hyps; prim.

Ltac run_addResolver H key v :=
  unfold addResolver in H; cbv zeta in H;
  let Hsp := fresh "Hsp" in
  destruct (split_sp (normalizeResolverKey key)) as [|?t [|?f [|? ?]]] eqn:Hsp;
  [exec H; prim | exec H; prim | run_addResolver_body H v | exec H; prim].

Ltac close_reg_step :=
  unfold wgrow, reg_step in *; split_hyps; simpl_api; split; [reflexivity|]; split; [set_solver|];
  let K := fresh "K" in let HK := fresh "HK" in intros K HK;
  first
  [ destruct HK as [HK|HK]; contradiction HK; reflexivity
  | match goal with
    | |- context [w_constructs (world ?s')] =>
        match type of HK with
        | context [<[?k := _]> (dataSourcesByDsKey _)] =>
            destruct (decide (K = k)) as [->|?];
            [split; [set_solver | split; [set_solver | assumption]]
            | rewrite ?lookup_insert_ne in HK by congruence;
              destruct HK as [HK|HK]; contradiction HK; reflexivity]
        end
    end ].

Lemma reg_step_refl s : reg_step s s.
Proof. split; [reflexivity|]. split; [set_solver|]. intros K [HK|HK]; contradiction HK; reflexivity. Qed.

Lemma reg_step_trans s1 s2 s3 : reg_step s1 s2 -> reg_step s2 s3 -> reg_step s1 s3.
Proof.
  intros (Ha1 & Hc1 & Hk1) (Ha2 & Hc2 & Hk2). rewrite Ha1 in Hk2.
  split; [congruence|]. split; [set_solver|]. intros K HK.
  destruct (decide (dataSourcesByDsKey s2 !! K = dataSourcesByDsKey s1 !! K /\
                    functionsByDsKey s2 !! K = functionsByDsKey s1 !! K)) as [[E1 E2]|Hn].
  - rewrite <- E1, <- E2 in HK. destruct (Hk2 K HK) as (? & ? & ?).
    split; [set_solver | split; [set_solver | assumption]].
  - assert (Hch : dataSourcesByDsKey s2 !! K <> dataSourcesByDsKey s1 !! K \/
                  functionsByDsKey s2 !! K <> functionsByDsKey s1 !! K).
    { destruct (decide (dataSourcesByDsKey s2 !! K = dataSourcesByDsKey s1 !! K)); [right|left];
        [intros E; apply Hn; split; assumption | assumption]. }
    destruct (Hk1 K Hch) as (? & ? & ?). split; [set_solver | split; [set_solver | assumption]].
Qed.

Lemma reg_inv_step s s' : reg_inv s -> reg_step s s' -> reg_inv s'.
Proof.
  intros Hi (Ha & Hc & Hk) K HK. rewrite Ha.
  destruct (decide (dataSourcesByDsKey s' !! K = dataSourcesByDsKey s !! K /\
                    functionsByDsKey s' !! K = functionsByDsKey s !! K)) as [[E1 E2]|Hn].
  - destruct (Hi K) as [Hin Hne]; [|split; [apply Hc, Hin | exact Hne]].
    rewrite !elem_of_dom, <- E1, <- E2, <- !elem_of_dom. exact HK.
  - apply Hk. destruct (decide (dataSourcesByDsKey s' !! K = dataSourcesByDsKey s !! K));
      [right; intros E; apply Hn; split; assumption | left; assumption].
Qed.

Lemma reg_step_same s s' :
  api_scope s' = api_scope s -> w_constructs (world s') = w_constructs (world s) ->
  dataSourcesByDsKey s' = dataSourcesByDsKey s -> functionsByDsKey s' = functionsByDsKey s ->
  reg_step s s'.
Proof.
  intros Ha Hc Hd Hf. split; [exact Ha|]. split; [rewrite Hc; set_solver|].
  rewrite Hd, Hf. intros K [HK|HK]; contradiction HK; reflexivity.
Qed.

Lemma reg_step_world s w : w_constructs (world s) ⊆ w_constructs w -> reg_step s (set_world w s).
Proof. intros Hc. split; [reflexivity|]. split; [exact Hc|]. intros K [HK|HK]; contradiction HK; reflexivity. Qed.

Lemma addDataSource_reg_step sc k v s r s' :
  addDataSource sc k v s = (r, s') -> reg_step s s'.
Proof. intros H. run_addDataSource H v. all: close_reg_step. Qed.

Lemma addResolver_reg_step sc key v s r s' :
  addResolver sc key v s = (r, s') -> reg_step s s'.
Proof. intros H. run_addResolver H key v. all: try apply reg_step_refl. all: close_reg_step. Qed.

Section Preorder.
Variable R : Api -> Api -> Prop.
Hypothesis R_refl : forall s, R s s.
Hypothesis R_trans : forall s1 s2 s3, R s1 s2 -> R s2 s3 -> R s1 s3.

Lemma mapM__rel {A} (f : A -> M unit) l s r s' :
  (forall x s r s', f x s = (r, s') -> R s s') -> mapM_ f l s = (r, s') -> R s s'.
Proof.
  intros Hf. revert s r s'. induction l as [|x l IH]; intros s r s' H; simpl in H.
  - injection H as _ <-. apply R_refl.
  - apply bind_inv in H as [(e & Hc & _) | (a & s1 & Hc & H)].
    + exact (Hf _ _ _ _ Hc).
    + exact (R_trans _ _ _ (Hf _ _ _ _ Hc) (IH _ _ _ H)).
Qed.

Lemma bind_rel {A B} (m : M A) (k : A -> M B) s r s' :
  (forall r s', m s = (r, s') -> R s s') ->
  (forall a s1 r s', m s = (inr a, s1) -> k a s1 = (r, s') -> R s1 s') ->
  bind m k s = (r, s') -> R s s'.
Proof.
  intros Hm Hk H. apply bind_inv in H as [(e & Hc & _) | (a & s1 & Hc & H)].
  - exact (Hm _ _ Hc).
  - exact (R_trans _ _ _ (Hm _ _ Hc) (Hk _ _ _ _ Hc H)).
Qed.

(** A batch relates its states when each call and the replay do. *)
Lemma batch_rel (call : string -> Value -> M (option FnHandle))
    (go : list (string * Value) -> M unit) l s r s' :
  (forall s, go [] s = ret tt s) ->
  (forall k v rest s, go ((k, v) :: rest) s =
     (fn <- call k v ;;
      match fn with Some f => attachExisting f | None => ret tt end ;;
      go rest) s) ->
  (forall k v s r s', call k v s = (r, s') -> R s s') ->
  (forall fn s r s', attachExisting fn s = (r, s') -> R s s') ->
  go l s = (r, s') -> R s s'.
Proof.
  intros Hnil Hcons Hc Ha. revert s r s'. induction l as [|[k v] l IH]; intros s r s' H.
  - rewrite Hnil in H. injection H as _ <-. apply R_refl.
  - rewrite Hcons in H. revert H. apply bind_rel; [apply Hc|].
    intros o s1 r1 s2 _. cbv beta. apply bind_rel.
    + destruct o; [apply Ha | intros r2 s3 E; injection E as _ <-; apply R_refl].
    + intros _ s3 r3 s4 _. apply IH.
Qed.
End Preorder.

Lemma fn_attachPermissions_inv p f s r s' :
  fn_attachPermissions p f s = (r, s') ->
  r = inr tt /\ s' = set_world (w_set_grants f (grants_of (world s) f ++ [p]) (world s)) s.
Proof.
  unfold fn_attachPermissions, set_grants. intros H. exec H. prim. auto.
Qed.

Lemma fn_attachPermissions_reg_step p f s r s' :
  fn_attachPermissions p f s = (r, s') -> reg_step s s'.
Proof. intros H. apply fn_attachPermissions_inv in H as [_ ->]. apply reg_step_world. set_solver. Qed.

Lemma attachExisting_reg_step fn s r s' : attachExisting fn s = (r, s') -> reg_step s s'.
Proof.
  unfold attachExisting. rewrite bind_get. apply mapM__rel;
    [apply reg_step_refl | apply reg_step_trans |].
  intros p. apply fn_attachPermissions_reg_step.
Qed.

Lemma attachPermissions_reg_step p s r s' : attachPermissions p s = (r, s') -> reg_step s s'.
Proof.
  unfold attachPermissions. rewrite bind_get. cbv beta.
  apply (bind_rel reg_step reg_step_trans).
  - intros r1 s1. apply (mapM__rel reg_step reg_step_refl reg_step_trans).
    intros kv. apply fn_attachPermissions_reg_step.
  - intros _ s1 r1 s2 _ H. cbv [modify] in H. injection H as _ <-.
    apply reg_step_same; reflexivity.
Qed.

Lemma attachPermissionsToDataSource_reg_step k p s r s' :
  attachPermissionsToDataSource k p s = (r, s') -> reg_step s s'.
Proof.
  unfold attachPermissionsToDataSource. rewrite bind_get. cbv beta.
  destruct (getFunction s k); [apply fn_attachPermissions_reg_step| |];
    intros H; injection H as _ <-; apply reg_step_refl.
Qed.

Lemma run_op_reg_step op s r s' : run_op op s = (r, s') -> reg_step s s'.
Proof.
  destruct op as [sc l|sc l|p|k p]; simpl.
  - apply (batch_rel reg_step reg_step_refl reg_step_trans (addDataSource sc));
      [reflexivity | reflexivity | |].
    + intros k v. apply addDataSource_reg_step.
    + apply attachExisting_reg_step.
  - apply (batch_rel reg_step reg_step_refl reg_step_trans (addResolver sc));
      [reflexivity | reflexivity | |].
    + intros k v. apply addResolver_reg_step.
    + apply attachExisting_reg_step.
  - apply attachPermissions_reg_step.
  - apply attachPermissionsToDataSource_reg_step.
Qed.

Lemma construct_reg_inv self apiScope w defaults dss rs r s :
  construct self apiScope w defaults dss rs = (r, s) -> reg_inv s.
Proof.
  unfold construct. intros H.
  apply (reg_inv_step (init_api apiScope w defaults)).
  - intros K [HK|HK]; simpl in HK; set_solver.
  - revert H. apply (bind_rel reg_step reg_step_trans).
    + intros r0 s0. apply (mapM__rel reg_step reg_step_refl reg_step_trans).
      intros kv s1 r1 s2. apply (bind_rel reg_step reg_step_trans); [apply addDataSource_reg_step |].
      intros _ s3 r3 s4 _ E. injection E as _ <-. apply reg_step_refl.
    + intros _ s1 r1 s2 _. apply (mapM__rel reg_step reg_step_refl reg_step_trans).
      intros kv s3 r3 s4. apply (bind_rel reg_step reg_step_trans); [apply addResolver_reg_step |].
      intros _ s5 r5 s6 _ E. injection E as _ <-. apply reg_step_refl.
Qed.

Lemma reachable_reg_inv s : reachable s -> reg_inv s.
Proof.
  induction 1 as [??????? H | s op r s' _ IH H].
  - exact (construct_reg_inv _ _ _ _ _ _ _ _ H).
  - exact (reg_inv_step _ _ IH (run_op_reg_step _ _ _ _ H)).
Qed.

(** What [addDataSource] changes, in every outcome. *)
Lemma addDataSource_spec sc k v s r s' :
  addDataSource sc k v s = (r, s') ->
  resolversByResKey s' = resolversByResKey s /\ dsKeysByResKey s' = dsKeysByResKey s /\
  permissionsAttachedForAllFunctions s' = permissionsAttachedForAllFunctions s /\
  defaults_function s' = defaults_function s /\ api_scope s' = api_scope s /\
  wgrow (world s) (world s') /\
  ((exists e, r = inl e /\ dataSourcesByDsKey s' = dataSourcesByDsKey s /\
              functionsByDsKey s' = functionsByDsKey s) \/
   (exists o d, r = inr o /\ ((api_scope s, sanitizeId k) ∉ w_constructs (world s)) /\
      dataSourcesByDsKey s' = <[k:=d]> (dataSourcesByDsKey s) /\
      match o with
      | None => functionsByDsKey s' = functionsByDsKey s
      | Some l => functionsByDsKey s' = <[k:=l]> (functionsByDsKey s) /\
                  (value_wf (w_next (world s)) v -> l < w_next (world s'))
      end)).
Proof.
  intros H. run_addDataSource H v.
  all: split; [reflexivity|]; split; [reflexivity|]; split; [reflexivity|];
       split; [reflexivity|]; split; [reflexivity|].
  all: split; [eauto using wgrow_trans, wgrow_refl|].
  all: try (left; eexists; split; [reflexivity|]; split; reflexivity).
  all: right; do 2 eexists; split; [reflexivity|]; split; [|split; [reflexivity|]].
  all: try reflexivity.
  all: try (match goal with |- ~ _ => idtac end; unfold wgrow in *; split_hyps; set_solver).
  all: split; [reflexivity|]; intros Hwf; cbn [value_wf] in Hwf;
       try match goal with E : o_function _ = _ |- _ => rewrite E in Hwf end.
  all: match goal with Hr : forall l, inr ?a = inr l -> _ -> l < w_next (world ?s0) |- _ =>
         assert (a < w_next (world s0)) by (apply Hr; [reflexivity | cbn [fd_wf]; first [exact I | exact Hwf]])
       end.
  all: unfold wgrow in *; split_hyps; lia.
Qed.

(** What [addResolver] changes, in every outcome. *)
Lemma addResolver_spec sc key v s r s' :
  addResolver sc key v s = (r, s') ->
  permissionsAttachedForAllFunctions s' = permissionsAttachedForAllFunctions s /\
  defaults_function s' = defaults_function s /\ api_scope s' = api_scope s /\
  wgrow (world s) (world s') /\
  (forall K, K <> normalizeResolverKey key -> dsKeysByResKey s' !! K = dsKeysByResKey s !! K) /\
  (forall e, r = inl e -> resolversByResKey s' = resolversByResKey s) /\
  (forall o, r = inr o ->
     match o with
     | None => functionsByDsKey s' = functionsByDsKey s
     | Some l => exists K, functionsByDsKey s' = <[K:=l]> (functionsByDsKey s) /\
                 (value_wf (w_next (world s)) v -> l < w_next (world s'))
     end).
Proof.
  intros H. run_addResolver H key v.
  all: split; [reflexivity|]; split; [reflexivity|]; split; [reflexivity|].
  all: split; [eauto using wgrow_trans, wgrow_refl|].
  all: split; [intros K HK; rewrite ?lookup_insert_ne by congruence; reflexivity|].
  all: split; [intros ? ?; prim; reflexivity|].
  all: intros ? ?; prim; try reflexivity.
  all: eexists; split; [reflexivity|]; intros Hwf; cbn [value_wf] in Hwf;
       try match goal with E : o_function _ = _ |- _ => rewrite E in Hwf end.
  all: match goal with Hr : forall l, inr ?a = inr l -> _ -> l < w_next (world ?s0) |- _ =>
         assert (a < w_next (world s0)) by (apply Hr; [reflexivity | cbn [fd_wf]; first [exact I | exact Hwf]])
       end.
  all: unfold wgrow in *; split_hyps; lia.
Qed.

Lemma demo_api_reachable : reachable demo_api.
Proof.
  apply (reach_construct "App" "App/Api" empty_world None
           [("notesDS", VString "src/notes.main")] [("Query listNotes", VString "notesDS")]).
  vm_compute. reflexivity.
Qed.

(* ------------------------------------------------------------------ *)
(** ** Registered data sources are never replaced *)

(** The errors [addDataSource] may raise: the conflicting-defaults error
    of [Function.fromDefinition], or a refused construct id, that of the
    function or that of the data source. *)
Lemma addDataSource_error sc K v s e s' :
  addDataSource sc K v s = (inl e, s') ->
  e = EConflictingDefaults ("Lambda_" ++ K) \/
  construct_refusal (world s) sc (sanitizeId ("Lambda_" ++ K)) e \/
  exists w, w_constructs (world s) ⊆ w_constructs w /\
            construct_refusal w (api_scope s) (sanitizeId K) e.
Proof.
  intros H. run_addDataSource H v.
  all: try match goal with Hf : forall e, inl ?e0 = inl e -> _ |- _ =>
         destruct (Hf _ eq_refl) as [_ [?|?]]; clear Hf end.
  all: first [ left; assumption | right; left; assumption
             | right; right; eexists; split; [|eassumption]; unfold wgrow in *; split_hyps;
               set_solver ].
Qed.

(** C7 (amended): in a reachable state, adding a data source under a key
    [K] that is already registered fails and leaves both registries as
    they were. The error is not a dedicated duplicate-key error: it is the
    refusal of the data source's construct id, which already exists under
    the API, the refusal of the construct id of the function
    "Lambda_"++K, or, for an existing [Function] while function defaults
    are set, the conflicting-defaults error. No call of any kind,
    successful or not, changes the registry entry of a registered key. *)
Theorem registered_dataSource_never_overwritten s K :
  reachable s -> K ∈ dom (dataSourcesByDsKey s) ->
  (forall sc v r s', addDataSource sc K v s = (r, s') ->
     (r = inl (EConstructExists (api_scope s) (sanitizeId K)) \/
      r = inl (EConstructExists sc (sanitizeId ("Lambda_" ++ K))) \/
      r = inl (EConflictingDefaults ("Lambda_" ++ K))) /\
     dataSourcesByDsKey s' = dataSourcesByDsKey s /\
     functionsByDsKey s' = functionsByDsKey s) /\
  (forall op r s', run_op op s = (r, s') ->
     dataSourcesByDsKey s' !! K = dataSourcesByDsKey s !! K).
Proof.
  intros Hr HK. pose proof (reachable_reg_inv s Hr) as Hi.
  destruct (Hi K (or_introl HK)) as [Hc Hne].
  split.
  - intros sc v r s' H. pose proof H as H'.
    apply addDataSource_spec in H
      as (_ & _ & _ & _ & _ & _ & [(e & -> & Hd & Hf) | (o & d & _ & Hn & _)]);
      [|contradiction].
    split; [|auto].
    apply addDataSource_error in H' as [-> | [Hl | (w & Hw & Hk)]].
    + right; right; reflexivity.
    + right; left. destruct (lambda_id_ok K) as [Hne' Hnm'].
      destruct (construct_refusal_fresh_id _ _ _ _ Hl Hne' Hnm') as [_ ->]. reflexivity.
    + left. unfold construct_refusal in Hk.
      destruct Hk as [[? _]|(_ & -> & _)]; [contradiction | reflexivity].
  - intros op r s' H. apply run_op_reg_step in H as (_ & _ & Hk).
    destruct (decide (dataSourcesByDsKey s' !! K = dataSourcesByDsKey s !! K)) as [E|Hne2];
      [exact E|].
    destruct (Hk K (or_introl Hne2)) as [Hn _]. contradiction.
Qed.

Lemma registered_dataSource_never_overwritten_witness :
  reachable demo_api /\ ("notesDS" ∈ dom (dataSourcesByDsKey demo_api)) /\
  dataSourcesByDsKey (snd (addDataSource "App" "notesDS" (VString "src/other.main") demo_api))
    = dataSourcesByDsKey demo_api.
Proof.
  assert (Hin : "notesDS" ∈ dom (dataSourcesByDsKey demo_api))
    by (apply (bool_decide_eq_true_1 (_ ∈ _)); vm_compute; reflexivity).
  split; [exact demo_api_reachable|]. split; [exact Hin|].
  exact (proj1 (proj2 (proj1 (registered_dataSource_never_overwritten demo_api "notesDS"
                     demo_api_reachable Hin) "App" (VString "src/other.main") _ _
                     (surjective_pairing _)))).
Defined.

(** C7 (counterexample): re-adding the registered key "notesDS" with
    function defaults set fails with errors other than a refusal of the
    data source's construct id: with an existing [Function], the
    conflicting-defaults error; with a handler path, the refusal of the
    function's construct id "Lambda_notesDS". *)
Lemma addDataSource_registered_key_other_errors :
  reachable defaults_api /\
  ("notesDS" ∈ dom (dataSourcesByDsKey defaults_api)) /\
  addDataSource "App" "notesDS" (VFunction 0) defaults_api =
    (inl (EConflictingDefaults "Lambda_notesDS"), defaults_api) /\
  fst (addDataSource "App" "notesDS" (VString "src/other.main") defaults_api) =
    inl (EConstructExists "App" "Lambda_notesDS").
Proof.
  split.
  { apply (reach_construct "App" "App/Api" empty_world (Some {| fp_permissions := [] |})
             [("notesDS", VString "src/notes.main")] []).
    vm_compute. reflexivity. }
  split; [apply (bool_decide_eq_true_1 (_ ∈ _)); vm_compute; reflexivity|].
  split; vm_compute; reflexivity.
Qed.

Lemma mapM_fn_attach_ok {A} (g : A -> Permissions) (h : A -> FnHandle) l s r s' :
  mapM_ (fun x => fn_attachPermissions (g x) (h x)) l s = (r, s') -> r = inr tt.
Proof.
  revert s r s'. induction l as [|x l IH]; intros s r s' H; simpl in H.
  - injection H as <- _. reflexivity.
  - apply bind_inv in H as [(e & Hc & _) | (a & s1 & Hc & H)].
    + apply fn_attachPermissions_inv in Hc as [Hc _]. discriminate.
    + exact (IH _ _ _ H).
Qed.

Lemma attachExisting_ok fn s r s' : attachExisting fn s = (r, s') -> r = inr tt.
Proof.
  unfold attachExisting. rewrite bind_get. cbv beta.
  apply (mapM_fn_attach_ok (fun p => p) (fun _ => fn)).
Qed.

Lemma reg_step_subseteq s s' :
  reg_inv s -> reg_step s s' ->
  dataSourcesByDsKey s ⊆ dataSourcesByDsKey s' /\ functionsByDsKey s ⊆ functionsByDsKey s'.
Proof.
  intros Hi (_ & _ & Hk). split; apply map_subseteq_spec; intros K x Hx.
  - destruct (decide (dataSourcesByDsKey s' !! K = dataSourcesByDsKey s !! K)) as [E|Hne];
      [congruence|].
    destruct (Hk K (or_introl Hne)) as [Hn _]. exfalso. apply Hn, Hi. left.
    apply elem_of_dom. eauto.
  - destruct (decide (functionsByDsKey s' !! K = functionsByDsKey s !! K)) as [E|Hne];
      [congruence|].
    destruct (Hk K (or_intror Hne)) as [Hn _]. exfalso. apply Hn, Hi. right.
    apply elem_of_dom. eauto.
Qed.

Lemma addResolvers_reg_step sc l s r s' : addResolvers sc l s = (r, s') -> reg_step s s'.
Proof.
  apply (batch_rel reg_step reg_step_refl reg_step_trans (addResolver sc));
    [reflexivity | reflexivity | intros k v; apply addResolver_reg_step | apply attachExisting_reg_step].
Qed.

Lemma addDataSources_reg_step sc l s r s' : addDataSources sc l s = (r, s') -> reg_step s s'.
Proof.
  apply (batch_rel reg_step reg_step_refl reg_step_trans (addDataSource sc));
    [reflexivity | reflexivity | intros k v; apply addDataSource_reg_step | apply attachExisting_reg_step].
Qed.

(** A failing batch splits at the first failing call. *)
Lemma batch_failure (call : string -> Value -> M (option FnHandle))
    (go : list (string * Value) -> M unit) l s e s' :
  (forall s, go [] s = ret tt s) ->
  (forall k v rest s, go ((k, v) :: rest) s =
     (fn <- call k v ;;
      match fn with Some f => attachExisting f | None => ret tt end ;;
      go rest) s) ->
  go l s = (inl e, s') ->
  exists pre k v post s1, l = (pre ++ (k, v) :: post)%list /\ go pre s = (inr tt, s1) /\
    call k v s1 = (inl e, s').
Proof.
  intros Hnil Hcons. revert s. induction l as [|[k v] l IH]; intros s H.
  - rewrite Hnil in H. discriminate.
  - rewrite Hcons in H. apply bind_inv in H as [(e' & Hc & He) | (o & s1 & Hc & H)].
    + injection He as ->. exists [], k, v, l, s. split; [reflexivity|].
      split; [rewrite Hnil; reflexivity | exact Hc].
    + cbv beta in H. apply bind_inv in H as [(e' & Ha & He) | (u & s2 & Ha & H)].
      * exfalso. destruct o as [f|].
        -- apply attachExisting_ok in Ha. discriminate.
        -- injection Ha as Ha _. discriminate.
      * destruct (IH _ H) as (pre & k' & v' & post & s3 & -> & Hpre & Hfail).
        exists ((k, v) :: pre), k', v', post, s3. split; [reflexivity|]. split; [|exact Hfail].
        rewrite Hcons, (bind_inr _ _ _ _ _ Hc). cbv beta.
        rewrite (bind_inr _ _ _ _ _ Ha). destruct u. exact Hpre.
Qed.

(* ------------------------------------------------------------------ *)
(** ** Failed batches *)

(** C9 (counterexample): a failing entry is not left unregistered.
    Re-declaring the resolver "Query foo" with the data source [dsB] fails
    on the resolver construct id, but only after the resolver-key index has
    been switched to [dsB]: the resolver still uses [dsA] while
    [getDataSource] on its key now returns [dsB]. Re-declaring it with a
    handler path leaves a new function and data source registered under
    "LambdaDS_Query_foo" although the call failed. *)
Lemma addResolvers_failure_leaves_partial_entry :
  fst (construct "App" "App/Api" empty_world None
         [("dsA", VString "src/a.main"); ("dsB", VString "src/b.main")]
         [("Query foo", VString "dsA")]) = inr tt /\
  fst (addResolvers "App" [("Query foo", VString "dsB")] two_ds_api) =
    inl (EConstructExists "App/Api" "QueryfooResolver") /\
  dsKeysByResKey two_ds_api !! "Query foo" = Some "dsA" /\
  dsKeysByResKey (snd (addResolvers "App" [("Query foo", VString "dsB")] two_ds_api))
    !! "Query foo" = Some "dsB" /\
  getDataSource (snd (addResolvers "App" [("Query foo", VString "dsB")] two_ds_api)) "Query foo"
    = js_get (dataSourcesByDsKey two_ds_api) "dsB" /\
  option_map res_dataSource
    (js_own (getResolver (snd (addResolvers "App" [("Query foo", VString "dsB")] two_ds_api))
               "Query foo"))
    = Some (dataSourcesByDsKey two_ds_api !! "dsA") /\
  dataSourcesByDsKey two_ds_api !! "dsA" <> dataSourcesByDsKey two_ds_api !! "dsB" /\
  fst (addResolvers "App" [("Query foo", VString "src/x.main")] two_ds_api) =
    inl (EConstructExists "App/Api" "QueryfooResolver") /\
  functionsByDsKey two_ds_api !! "LambdaDS_Query_foo" = None /\
  functionsByDsKey (snd (addResolvers "App" [("Query foo", VString "src/x.main")] two_ds_api))
    !! "LambdaDS_Query_foo" <> None /\
  dataSourcesByDsKey (snd (addResolvers "App" [("Query foo", VString "src/x.main")] two_ds_api))
    !! "LambdaDS_Query_foo" <> None.
Proof.
  vm_compute.
  repeat split; first [reflexivity | discriminate | intros E; injection E; intros; discriminate].
Qed.

(** C9 (amended): in a reachable state, a failing [addResolvers] batch
    splits as [pre ++ (k, v) :: post]: the entries of [pre] ran to
    completion (state [s1]), the call for [k] raised the error, and
    [post] was not run. Nothing of [s1] is rolled back: the resolver
    registry is that of [s1], the resolver-key index differs from that of
    [s1] at most at the normalised failing key, and the data-source and
    function registries of [s1] are kept (the failing entry may have added
    to them). A failing [addDataSources] batch splits the same way and the
    failing call leaves all four registries as in [s1]. *)
Theorem batch_failure_no_rollback sc l s e s' :
  reachable s ->
  (addResolvers sc l s = (inl e, s') ->
   exists pre k v post s1, l = (pre ++ (k, v) :: post)%list /\
     addResolvers sc pre s = (inr tt, s1) /\ addResolver sc k v s1 = (inl e, s') /\
     resolversByResKey s' = resolversByResKey s1 /\
     (forall K, K <> normalizeResolverKey k -> dsKeysByResKey s' !! K = dsKeysByResKey s1 !! K) /\
     dataSourcesByDsKey s1 ⊆ dataSourcesByDsKey s' /\
     functionsByDsKey s1 ⊆ functionsByDsKey s') /\
  (addDataSources sc l s = (inl e, s') ->
   exists pre k v post s1, l = (pre ++ (k, v) :: post)%list /\
     addDataSources sc pre s = (inr tt, s1) /\ addDataSource sc k v s1 = (inl e, s') /\
     resolversByResKey s' = resolversByResKey s1 /\
     dsKeysByResKey s' = dsKeysByResKey s1 /\
     dataSourcesByDsKey s' = dataSourcesByDsKey s1 /\
     functionsByDsKey s' = functionsByDsKey s1).
Proof.
  intros Hr. pose proof (reachable_reg_inv s Hr) as Hi. split.
  - intros H. apply (batch_failure (addResolver sc) (addResolvers sc)) in H;
      [|reflexivity|reflexivity].
    destruct H as (pre & k & v & post & s1 & -> & Hpre & Hfail).
    exists pre, k, v, post, s1. split; [reflexivity|]. split; [exact Hpre|]. split; [exact Hfail|].
    pose proof (reg_inv_step _ _ Hi (addResolvers_reg_step _ _ _ _ _ Hpre)) as Hi1.
    pose proof (reg_step_subseteq _ _ Hi1 (addResolver_reg_step _ _ _ _ _ _ Hfail)) as [Hd Hf].
    apply addResolver_spec in Hfail as (_ & _ & _ & _ & Hk & Hres & _).
    split; [exact (Hres e eq_refl)|]. split; [exact Hk|]. split; assumption.
  - intros H. apply (batch_failure (addDataSource sc) (addDataSources sc)) in H;
      [|reflexivity|reflexivity].
    destruct H as (pre & k & v & post & s1 & -> & Hpre & Hfail).
    exists pre, k, v, post, s1. split; [reflexivity|]. split; [exact Hpre|]. split; [exact Hfail|].
    apply addDataSource_spec in Hfail as (Hres & Hk & _ & _ & _ & _ & [(e' & Hr' & Hd & Hf) | (o & d & Hr' & _)]);
      [|discriminate].
    auto.
Qed.

Lemma two_ds_api_reachable : reachable two_ds_api.
Proof.
  apply (reach_construct "App" "App/Api" empty_world None
           [("dsA", VString "src/a.main"); ("dsB", VString "src/b.main")]
           [("Query foo", VString "dsA")]).
  vm_compute. reflexivity.
Qed.

Lemma batch_failure_no_rollback_witness :
  reachable two_ds_api /\
  addResolvers "App" [("Query bar", VString "dsA"); ("Query foo", VString "dsB")] two_ds_api =
    (inl (EConstructExists "App/Api" "QueryfooResolver"),
     snd (addResolvers "App" [("Query bar", VString "dsA"); ("Query foo", VString "dsB")]
            two_ds_api)) /\
  exists pre k v post s1,
    [("Query bar", VString "dsA"); ("Query foo", VString "dsB")] = (pre ++ (k, v) :: post)%list /\
    addResolvers "App" pre two_ds_api = (inr tt, s1) /\
    resolversByResKey
      (snd (addResolvers "App" [("Query bar", VString "dsA"); ("Query foo", VString "dsB")]
              two_ds_api)) = resolversByResKey s1.
Proof.
  assert (Hf : addResolvers "App" [("Query bar", VString "dsA"); ("Query foo", VString "dsB")]
                 two_ds_api =
               (inl (EConstructExists "App/Api" "QueryfooResolver"),
                snd (addResolvers "App" [("Query bar", VString "dsA"); ("Query foo", VString "dsB")]
                       two_ds_api)))
    by (vm_compute; reflexivity).
  split; [exact two_ds_api_reachable|]. split; [exact Hf|].
  destruct (proj1 (batch_failure_no_rollback "App" _ _ _ _ two_ds_api_reachable) Hf)
    as (pre & k & v & post & s1 & Hl & Hpre & _ & Hres & _).
  exists pre, k, v, post, s1. split; [exact Hl|]. split; [exact Hpre | exact Hres].
Defined.

(* ------------------------------------------------------------------ *)
(** ** Permission records *)

Lemma js_get_insert_ne {A} (m : gmap string A) k k' a :
  k <> k' -> js_get (<[k:=a]> m) k' = js_get m k'.
Proof. intros Hne. unfold js_get. rewrite lookup_insert_ne by exact Hne. reflexivity. Qed.

Lemma grants_of_set f l w h :
  grants_of (w_set_grants f l w) h = if decide (h = f) then l else grants_of w h.
Proof.
  unfold grants_of, w_set_grants. simpl. destruct (decide (h = f)) as [->|Hne].
  - rewrite lookup_insert_eq. reflexivity.
  - rewrite lookup_insert_ne by congruence. reflexivity.
Qed.

Lemma mapM_fn_attach_spec {A} (g : A -> Permissions) (hd : A -> FnHandle) xs s r s' :
  mapM_ (fun x => fn_attachPermissions (g x) (hd x)) xs s = (r, s') ->
  r = inr tt /\ s' = set_world (world s') s /\ w_next (world s') = w_next (world s) /\
  w_constructs (world s') = w_constructs (world s) /\
  forall h, grants_of (world s') h =
    (grants_of (world s) h ++ map g (filter (fun x => h = hd x) xs))%list.
Proof.
  revert s r s'. induction xs as [|x xs IH]; intros s r s' H; simpl in H.
  - injection H as <- <-. split; [reflexivity|]. split; [apply world_only_refl|].
    split; [reflexivity|]. split; [reflexivity|]. intros h. simpl. rewrite app_nil_r. reflexivity.
  - apply bind_inv in H as [(e & Hc & _) | (a & s1 & Hc & H)].
    + apply fn_attachPermissions_inv in Hc as [Hc _]. discriminate.
    + apply fn_attachPermissions_inv in Hc as [_ ->].
      destruct (IH _ _ _ H) as (-> & Hs & Hn & Hc & Hg). split; [reflexivity|].
      split; [rewrite Hs; reflexivity|]. rewrite Hn, Hc. split; [reflexivity|].
      split; [reflexivity|]. intros h. rewrite Hg. simpl. rewrite grants_of_set, filter_cons.
      destruct (decide (h = hd x)) as [->|Hne]; simpl; [rewrite <- app_assoc; reflexivity|reflexivity].
Qed.

Lemma attachExisting_spec fn s r s' :
  attachExisting fn s = (r, s') ->
  r = inr tt /\ s' = set_world (world s') s /\ w_next (world s') = w_next (world s) /\
  forall h, grants_of (world s') h =
    (grants_of (world s) h ++
     if decide (h = fn) then permissionsAttachedForAllFunctions s else [])%list.
Proof.
  unfold attachExisting. rewrite bind_get. cbv beta. intros H.
  apply (mapM_fn_attach_spec (fun p => p) (fun _ => fn)) in H as (-> & Hs & Hn & _ & Hg).
  split; [reflexivity|]. split; [exact Hs|]. split; [exact Hn|]. intros h. rewrite Hg.
  f_equal. destruct (decide (h = fn)) as [->|Hne].
  - clear. induction (permissionsAttachedForAllFunctions s) as [|p ps IH]; [reflexivity|].
    rewrite filter_cons_True by reflexivity. simpl. rewrite IH. reflexivity.
  - clear -Hne. induction (permissionsAttachedForAllFunctions s) as [|p ps IH]; [reflexivity|].
    rewrite filter_cons_False by exact Hne. exact IH.
Qed.

Lemma addDataSource_call_ok sc : call_ok (addDataSource sc).
Proof.
  intros k v s r s' H.
  apply addDataSource_spec in H as (_ & _ & Hp & _ & _ & Hw & Hr).
  split; [exact Hp|]. split; [exact Hw|]. intros o ->.
  destruct Hr as [(e & He & _) | (o' & d & Ho & _ & _ & Hf)]; [discriminate|].
  injection Ho as <-. destruct o; [eexists; exact Hf | exact Hf].
Qed.

Lemma addResolver_call_ok sc : call_ok (addResolver sc).
Proof.
  intros k v s r s' H.
  apply addResolver_spec in H as (Hp & _ & _ & Hw & _ & _ & Hr).
  split; [exact Hp|]. split; [exact Hw|]. exact Hr.
Qed.

Lemma wgrow_grants w w' h : wgrow w w' -> h < w_next w -> grants_of w' h = grants_of w h.
Proof. intros (_ & _ & Hg) Hh. unfold grants_of. rewrite Hg by exact Hh. reflexivity. Qed.

Lemma value_wf_mono n n' v : value_wf n v -> n <= n' -> value_wf n' v.
Proof.
  destruct v as [|f|o]; simpl; [auto | lia |].
  destruct (o_function o) as [[| |]|]; simpl; auto; lia.
Qed.

Lemma call_fresh call k v s o s1 :
  call_ok call -> fns_fresh s -> value_wf (w_next (world s)) v ->
  call k v s = (inr o, s1) ->
  fns_fresh s1 /\ w_next (world s) <= w_next (world s1) /\
  permissionsAttachedForAllFunctions s1 = permissionsAttachedForAllFunctions s /\
  (forall h, h < w_next (world s) -> grants_of (world s1) h = grants_of (world s) h) /\
  match o with
  | None => functionsByDsKey s1 = functionsByDsKey s
  | Some l => exists K, functionsByDsKey s1 = <[K:=l]> (functionsByDsKey s)
  end.
Proof.
  intros Hok Hfr Hv Hc. destruct (Hok _ _ _ _ _ Hc) as (Hp & Hw & Hr).
  specialize (Hr o eq_refl). pose proof Hw as (_ & Hn & _).
  split; [|split; [exact Hn|]; split; [exact Hp|]; split;
            [intros h Hh; exact (wgrow_grants _ _ _ Hw Hh)|]].
  - intros K h HK. destruct o as [l|].
    + destruct Hr as (K0 & Hf & Hl). rewrite Hf in HK.
      destruct (decide (K = K0)) as [->|Hne].
      * rewrite lookup_insert_eq in HK. injection HK as <-. exact (Hl Hv).
      * rewrite lookup_insert_ne in HK by congruence. specialize (Hfr _ _ HK). lia.
    + rewrite Hr in HK. specialize (Hfr _ _ HK). lia.
  - destruct o as [l|]; [destruct Hr as (K0 & Hf & _); eauto | exact Hr].
Qed.

(** A registration followed by the replay keeps the invariants. *)
Lemma replay_step call k v s o s1 u s2 :
  call_ok call -> fns_fresh s -> perms_replayed s -> value_wf (w_next (world s)) v ->
  call k v s = (inr o, s1) ->
  (match o with Some f => attachExisting f | None => ret tt end) s1 = (inr u, s2) ->
  fns_fresh s2 /\ perms_replayed s2 /\ w_next (world s) <= w_next (world s2).
Proof.
  intros Hok Hfr Hpr Hv Hc Ha.
  destruct (call_fresh _ _ _ _ _ _ Hok Hfr Hv Hc) as (Hfr1 & Hn & Hp & Hg & Hr).
  destruct o as [l|].
  - apply attachExisting_spec in Ha as (_ & Hs & Hn2 & Hg2).
    assert (Ef : functionsByDsKey s2 = functionsByDsKey s1) by (rewrite Hs; reflexivity).
    assert (Ep : permissionsAttachedForAllFunctions s2 = permissionsAttachedForAllFunctions s1)
      by (rewrite Hs; reflexivity).
    destruct Hr as (K0 & Hf).
    split; [|split; [|lia]].
    + intros K h HK. rewrite Hn2. rewrite Ef in HK. exact (Hfr1 _ _ HK).
    + intros K h HK. rewrite Ep, Hg2, Hp. rewrite Ef, Hf in HK.
      destruct (decide (K = K0)) as [->|Hne].
      * rewrite lookup_insert_eq in HK. injection HK as <-.
        rewrite decide_True by reflexivity. apply sublist_inserts_l. reflexivity.
      * rewrite lookup_insert_ne in HK by congruence. apply sublist_inserts_r.
        rewrite Hg by exact (Hfr _ _ HK). exact (Hpr _ _ HK).
  - injection Ha as _ <-. split; [exact Hfr1|]. split; [|exact Hn].
    intros K h HK. rewrite Hp. rewrite Hr in HK.
    rewrite Hg by exact (Hfr _ _ HK). exact (Hpr _ _ HK).
Qed.

Lemma replay_batch (call : string -> Value -> M (option FnHandle))
    (go : list (string * Value) -> M unit) l s s' :
  (forall s, go [] s = ret tt s) ->
  (forall k v rest s, go ((k, v) :: rest) s =
     (fn <- call k v ;;
      match fn with Some f => attachExisting f | None => ret tt end ;;
      go rest) s) ->
  call_ok call -> fns_fresh s -> perms_replayed s ->
  Forall (fun kv => value_wf (w_next (world s)) kv.2) l ->
  go l s = (inr tt, s') ->
  fns_fresh s' /\ perms_replayed s' /\ w_next (world s) <= w_next (world s').
Proof.
  intros Hnil Hcons Hok. revert s s'. induction l as [|[k v] l IH]; intros s s' Hfr Hpr Hwf H.
  - rewrite Hnil in H. injection H as <-. auto.
  - rewrite Hcons in H. apply Forall_cons in Hwf as [Hv Hwf].
    apply bind_inv in H as [(e & _ & He) | (o & s1 & Hc & H)]; [discriminate|].
    cbv beta in H. apply bind_inv in H as [(e & _ & He) | (u & s2 & Ha & H)]; [discriminate|].
    destruct (replay_step _ _ _ _ _ _ _ _ Hok Hfr Hpr Hv Hc Ha) as (Hfr2 & Hpr2 & Hn2).
    destruct (IH _ _ Hfr2 Hpr2 (Forall_impl _ _ _ Hwf (fun kv H => value_wf_mono _ _ _ H Hn2)) H)
      as (? & ? & ?).
    split; [assumption|]. split; [assumption|]. lia.
Qed.

(** The constructor's loops: no permission is retained yet. *)
Lemma construct_loop_fresh (call : string -> Value -> M (option FnHandle)) l s r s' :
  call_ok call -> fns_fresh s -> permissionsAttachedForAllFunctions s = [] ->
  Forall (fun kv => value_wf (w_next (world s)) kv.2) l ->
  mapM_ (fun kv => call kv.1 kv.2 ;; ret tt) l s = (r, s') -> r = inr tt ->
  fns_fresh s' /\ permissionsAttachedForAllFunctions s' = [] /\
  w_next (world s) <= w_next (world s').
Proof.
  intros Hok. revert s r s'. induction l as [|[k v] l IH]; intros s r s' Hfr Hp Hwf H Hr; simpl in H.
  - injection H as _ <-. auto.
  - apply Forall_cons in Hwf as [Hv Hwf]. subst r. rewrite bind_assoc in H.
    apply bind_inv in H as [(e & _ & He) | (o & s1 & Hc & H)]; [discriminate|].
    rewrite bind_ret in H.
    destruct (call_fresh _ _ _ _ _ _ Hok Hfr Hv Hc) as (Hfr1 & Hn & Hp1 & _).
    destruct (IH _ _ _ Hfr1 ltac:(congruence)
                (Forall_impl _ _ _ Hwf (fun kv H => value_wf_mono _ _ _ H Hn)) H eq_refl)
      as (? & ? & ?).
    split; [assumption|]. split; [assumption|]. lia.
Qed.

Lemma construct_replayed self apiScope w defaults dss rs s :
  Forall (fun kv => value_wf (w_next w) kv.2) (dss ++ rs)%list ->
  construct self apiScope w defaults dss rs = (inr tt, s) ->
  fns_fresh s /\ perms_replayed s.
Proof.
  intros Hwf H. apply Forall_app in Hwf as [Hd Hr]. unfold construct in H.
  apply bind_inv in H as [(e & _ & He) | (u & s1 & H1 & H2)]; [discriminate|].
  assert (Hfr0 : fns_fresh (init_api apiScope w defaults))
    by (intros K h HK; simpl in HK; rewrite lookup_empty in HK; discriminate).
  destruct u.
  destruct (construct_loop_fresh _ _ _ _ _ (addDataSource_call_ok self)
              Hfr0 eq_refl Hd H1 eq_refl)
    as (Hfr1 & Hp1 & Hn1).
  destruct (construct_loop_fresh _ _ _ _ _ (addResolver_call_ok self) Hfr1 Hp1
              (Forall_impl _ _ _ Hr (fun kv H => value_wf_mono _ _ _ H Hn1)) H2 eq_refl)
    as (Hfr2 & Hp2 & _).
  split; [exact Hfr2|]. intros K h _. rewrite Hp2. apply sublist_nil_l.
Qed.

Lemma map_const_filter_sublist {A} (p : Permissions) (P : A -> Prop) `{forall x, Decision (P x)}
    (l : list A) x :
  x ∈ l -> P x -> [p] `sublist_of` map (fun _ => p) (filter P l).
Proof.
  intros Hx HP. destruct (filter P l) as [|y ys] eqn:E.
  - exfalso. exact (filter_nil_not_elem_of _ _ _ E HP Hx).
  - simpl. apply sublist_skip, sublist_nil_l.
Qed.

Lemma attachPermissions_replayed p s s' :
  fns_fresh s -> perms_replayed s -> attachPermissions p s = (inr tt, s') ->
  fns_fresh s' /\ perms_replayed s' /\ w_next (world s) <= w_next (world s').
Proof.
  intros Hfr Hpr H. unfold attachPermissions in H. rewrite bind_get in H. cbv beta in H.
  apply bind_inv in H as [(e & _ & He) | (u & s1 & H1 & H)]; [discriminate|].
  cbv [modify] in H. injection H as <-.
  apply (mapM_fn_attach_spec (fun _ => p) (fun kv => kv.2)) in H1 as (_ & Hs & Hn & _ & Hg).
  assert (Ef : functionsByDsKey s1 = functionsByDsKey s) by (rewrite Hs; reflexivity).
  assert (Ep : permissionsAttachedForAllFunctions s1 = permissionsAttachedForAllFunctions s)
    by (rewrite Hs; reflexivity).
  unfold fns_fresh, perms_replayed; simpl. rewrite Ef, Ep, Hn. split; [exact Hfr|]. split; [|lia].
  intros K h HK. rewrite Hg. apply sublist_app; [exact (Hpr _ _ HK)|].
  apply (map_const_filter_sublist p _ _ (K, h)); [|reflexivity].
  apply elem_of_map_to_list. exact HK.
Qed.

Lemma attachPermissionsToDataSource_replayed k p s s' :
  fns_fresh s -> perms_replayed s -> attachPermissionsToDataSource k p s = (inr tt, s') ->
  fns_fresh s' /\ perms_replayed s' /\ w_next (world s) <= w_next (world s').
Proof.
  intros Hfr Hpr H. unfold attachPermissionsToDataSource in H. rewrite bind_get in H.
  cbv beta in H. destruct (getFunction s k) as [fn| |]; [|discriminate..].
  apply fn_attachPermissions_inv in H as [_ ->]. split; [exact Hfr|]. split; [|apply le_n].
  intros K h HK. unfold grants_of at 1; cbn [world set_world]. fold (grants_of (w_set_grants fn (grants_of (world s) fn ++ [p]) (world s)) h).
  rewrite grants_of_set. specialize (Hpr _ _ HK).
  destruct (decide (h = fn)) as [->|]; [apply sublist_inserts_r|]; exact Hpr.
Qed.

Lemma reachable_ok_replayed s : reachable_ok s -> fns_fresh s /\ perms_replayed s.
Proof.
  induction 1 as [??????? Hwf H | s op s' _ [Hfr Hpr] Hwf H].
  - exact (construct_replayed _ _ _ _ _ _ _ Hwf H).
  - destruct op as [sc l|sc l|p|k p]; simpl in H, Hwf.
    + apply (replay_batch (addDataSource sc) (addDataSources sc)) in H as (? & ? & _);
        [auto | reflexivity | reflexivity | apply addDataSource_call_ok | auto | auto | auto].
    + apply (replay_batch (addResolver sc) (addResolvers sc)) in H as (? & ? & _);
        [auto | reflexivity | reflexivity | apply addResolver_call_ok | auto | auto | auto].
    + apply attachPermissions_replayed in H as (? & ? & _); auto.
    + apply attachPermissionsToDataSource_replayed in H as (? & ? & _); auto.
Qed.

(** C2 (amended): in every state reached by the constructor and calls
    that all returned normally, the retained global permissions are, in
    their order of attachment, among the permissions of every registered
    function.  Grants attached before a function is registered and grants
    attached after it both reach it. *)
Theorem global_permissions_replayed s K h :
  reachable_ok s -> functionsByDsKey s !! K = Some h ->
  permissionsAttachedForAllFunctions s `sublist_of` grants_of (world s) h.
Proof. intros Hs HK. exact (proj2 (reachable_ok_replayed s Hs) K h HK). Qed.

Lemma global_permissions_replayed_witness :
  exists h, reachable_ok granted_then_added_api /\
    functionsByDsKey granted_then_added_api !! "dsC" = Some h /\
    permissionsAttachedForAllFunctions granted_then_added_api = ["p1"] /\
    ["p1"] `sublist_of` grants_of (world granted_then_added_api) h.
Proof.
  assert (H2 : reachable_ok two_ds_api).
  { apply (reach_ok_construct "App" "App/Api" empty_world None
             [("dsA", VString "src/a.main"); ("dsB", VString "src/b.main")]
             [("Query foo", VString "dsA")]); [repeat constructor | vm_compute; reflexivity]. }
  assert (Hg : reachable_ok granted_api).
  { apply (reach_ok_op two_ds_api (OpAttachPermissions "p1")); [exact H2 | exact I |].
    vm_compute. reflexivity. }
  assert (Ha : reachable_ok granted_then_added_api).
  { apply (reach_ok_op granted_api (OpAddDataSources "App" [("dsC", VString "src/c.main")]));
      [exact Hg | repeat constructor |]. vm_compute. reflexivity. }
  destruct (functionsByDsKey granted_then_added_api !! "dsC") as [h|] eqn:E;
    [|vm_compute in E; discriminate E].
  exists h. split; [exact Ha|]. split; [reflexivity|].
  assert (Ep : permissionsAttachedForAllFunctions granted_then_added_api = ["p1"])
    by (vm_compute; reflexivity).
  split; [exact Ep|]. rewrite <- Ep.
  exact (global_permissions_replayed granted_then_added_api "dsC" h Ha E).
Defined.

(** C2 (counterexample): a grant is not replayed on every function
    registered by a call.  After the global grant "p1", re-declaring the
    resolver "Query foo" with a handler path registers a new function
    under "LambdaDS_Query_foo", then throws on the resolver construct id
    before the replay: the function, still registered, lacks "p1" although
    "p1" is retained, while the functions registered before hold it.
    The caller may catch the exception and keep using the object. *)
Lemma failed_addResolvers_skips_replay :
  reachable granted_failed_api /\
  fst (attachPermissions "p1" two_ds_api) = inr tt /\
  fst (addResolvers "App" [("Query foo", VString "src/x.main")] granted_api) =
    inl (EConstructExists "App/Api" "QueryfooResolver") /\
  permissionsAttachedForAllFunctions granted_failed_api = ["p1"] /\
  functionsByDsKey granted_api !! "LambdaDS_Query_foo" = None /\
  (exists h, functionsByDsKey granted_failed_api !! "LambdaDS_Query_foo" = Some h /\
             grants_of (world granted_failed_api) h = []) /\
  (exists h, functionsByDsKey granted_failed_api !! "dsA" = Some h /\
             grants_of (world granted_failed_api) h = ["p1"]).
Proof.
  split.
  { apply (reach_op granted_api (OpAddResolvers "App" [("Query foo", VString "src/x.main")])
             (fst (addResolvers "App" [("Query foo", VString "src/x.main")] granted_api)));
      [|cbv [run_op granted_failed_api]; apply surjective_pairing].
    apply (reach_op two_ds_api (OpAttachPermissions "p1")
             (fst (attachPermissions "p1" two_ds_api)));
      [exact two_ds_api_reachable | cbv [run_op granted_api]; apply surjective_pairing]. }
  split; [vm_compute; reflexivity|]. split; [vm_compute; reflexivity|].
  split; [vm_compute; reflexivity|]. split; [vm_compute; reflexivity|].
  split; eexists; vm_compute; split; reflexivity.
Qed.

(* ------------------------------------------------------------------ *)
(** ** Further properties of the registries *)


Lemma normalize_idem x : normalizeResolverKey (normalizeResolverKey x) = normalizeResolverKey x.
Proof. rewrite !normalize_squeeze. apply squeeze_idem. Qed.

Lemma normalize_ws_runs a b w1 w2 :
  w1 <> "" -> all_ws w1 = true -> w2 <> "" -> all_ws w2 = true ->
  normalizeResolverKey (a ++ w1 ++ b) = normalizeResolverKey (a ++ w2 ++ b).
Proof.
  intros H1 H1w H2 H2w. rewrite !normalize_squeeze.
  apply squeeze_app_prefix. intros c.
  rewrite (squeeze_run c w1), (squeeze_run c w2) by assumption. reflexivity.
Qed.

(** [getResolver] looks keys up in normalised form: two keys that differ
    only in the length of one whitespace run (leading, inner or trailing)
    find the same resolver. *)
Theorem getResolver_whitespace_insensitive s a b w1 w2 :
  w1 <> "" -> all_ws w1 = true -> w2 <> "" -> all_ws w2 = true ->
  getResolver s (a ++ w1 ++ b) = getResolver s (a ++ w2 ++ b).
Proof. intros. unfold getResolver. f_equal. apply normalize_ws_runs; assumption. Qed.

Lemma getResolver_whitespace_insensitive_witness :
  getResolver demo_api ("Query" ++ "   " ++ "listNotes") =
  getResolver demo_api ("Query" ++ " " ++ "listNotes") /\
  getResolver demo_api "Query listNotes" <> JUndefined.
Proof.
  split.
  - apply getResolver_whitespace_insensitive; first [discriminate | reflexivity].
  - vm_compute. discriminate.
Defined.

(** [addResolver] on a key that does not normalise to "typeName fieldName"
    with a non-empty field name throws, with the invalid-resolver or the
    invalid-field error, before changing anything. *)
Theorem addResolver_invalid_key_no_effect sc key v s :
  (forall t f, ~ valid_resolver_key key t f) ->
  addResolver sc key v s = (inl (EInvalidResolver (normalizeResolverKey key)), s) \/
  addResolver sc key v s = (inl (EInvalidField (normalizeResolverKey key)), s).
Proof.
  intros Hk. destruct (addResolver_rejects_bad_keys sc key v s) as [H1 H2].
  destruct (split_sp (normalizeResolverKey key)) as [|t [|f [|x l]]] eqn:E;
    try (left; apply H1; intros t' f'; discriminate).
  destruct (String.eqb_spec f "") as [->|Hf].
  - right. apply (H2 t). reflexivity.
  - exfalso. apply (Hk t f). split; assumption.
Qed.

Lemma addResolver_invalid_key_no_effect_witness :
  addResolver "App" "Query" (VString "notesDS") demo_api =
    (inl (EInvalidResolver "Query"), demo_api) \/
  addResolver "App" "Query" (VString "notesDS") demo_api =
    (inl (EInvalidField "Query"), demo_api).
Proof.
  apply (addResolver_invalid_key_no_effect "App" "Query" (VString "notesDS") demo_api).
  intros t f [Hs _]. vm_compute in Hs. discriminate Hs.
Defined.

(** [attachPermissionsToDataSource key p]: when [getFunction key] reads
    [undefined] it throws the missing-function error and changes nothing;
    when it reads a member inherited from [Object.prototype], which has no
    [attachPermissions] method, it throws a [TypeError] and changes
    nothing; when it finds a function, it appends [p] to that one
    function's permissions and to no other, and changes neither the
    registries nor the retained global permissions (functions added later
    do not receive [p]). *)
Theorem attachPermissionsToDataSource_effect key p s :
  (getFunction s key = JUndefined ->
   attachPermissionsToDataSource key p s = (inl (EFunctionMissing key), s)) /\
  (forall name, getFunction s key = JProto name ->
   attachPermissionsToDataSource key p s = (inl ETypeError, s)) /\
  (forall fn r s', getFunction s key = JOwn fn ->
   attachPermissionsToDataSource key p s = (r, s') ->
   r = inr tt /\
   (forall h, grants_of (world s') h =
              (grants_of (world s) h ++ if decide (h = fn) then [p] else [])%list) /\
   functionsByDsKey s' = functionsByDsKey s /\ dataSourcesByDsKey s' = dataSourcesByDsKey s /\
   resolversByResKey s' = resolversByResKey s /\ dsKeysByResKey s' = dsKeysByResKey s /\
   permissionsAttachedForAllFunctions s' = permissionsAttachedForAllFunctions s /\
   w_constructs (world s') = w_constructs (world s) /\ w_next (world s') = w_next (world s)).
Proof.
  unfold attachPermissionsToDataSource. rewrite bind_get. split; [|split].
  - intros E. rewrite E. reflexivity.
  - intros name E. rewrite E. reflexivity.
  - intros fn r s' E H. rewrite E in H. apply fn_attachPermissions_inv in H as [-> ->].
    split; [reflexivity|]. split; [|repeat split].
    intros h. unfold grants_of at 1; cbn [world set_world].
    fold (grants_of (w_set_grants fn (grants_of (world s) fn ++ [p]) (world s)) h).
    rewrite grants_of_set. destruct (decide (h = fn)) as [->|]; [reflexivity|].
    rewrite app_nil_r. reflexivity.
Qed.

Lemma attachPermissionsToDataSource_effect_witness :
  attachPermissionsToDataSource "Query nothing" "s3" demo_api =
    (inl (EFunctionMissing "Query nothing"), demo_api) /\
  attachPermissionsToDataSource "toString" "s3" demo_api = (inl ETypeError, demo_api) /\
  exists fn, getFunction demo_api "Query listNotes" = JOwn fn /\
    grants_of (world (snd (attachPermissionsToDataSource "Query listNotes" "s3" demo_api))) fn =
    (grants_of (world demo_api) fn ++ ["s3"])%list.
Proof.
  split; [|split].
  - apply (attachPermissionsToDataSource_effect "Query nothing" "s3" demo_api). vm_compute. reflexivity.
  - apply (proj1 (proj2 (attachPermissionsToDataSource_effect "toString" "s3" demo_api))
             "toString").
    vm_compute. reflexivity.
  - destruct (getFunction demo_api "Query listNotes") as [fn| |] eqn:E;
      [|vm_compute in E; discriminate E..].
    exists fn. split; [reflexivity|].
    destruct (proj2 (proj2 (attachPermissionsToDataSource_effect "Query listNotes" "s3" demo_api))
                fn _ _ E (surjective_pairing _)) as (_ & Hg & _).
    rewrite Hg. rewrite decide_True by reflexivity. reflexivity.
Defined.

(** [attachPermissions p] never throws; it appends [p] to the retained
    global permissions and, for each key of the function registry, to
    the permissions of the function under that key: a function registered
    under [n] keys receives [p] [n] times, an unregistered one not at all.
    The registries and the construct tree are unchanged. *)
Theorem attachPermissions_per_registry_key p s r s' :
  attachPermissions p s = (r, s') ->
  r = inr tt /\
  permissionsAttachedForAllFunctions s' = (permissionsAttachedForAllFunctions s ++ [p])%list /\
  (forall h, grants_of (world s') h =
     (grants_of (world s) h ++
      repeat p (length (filter (fun kv => h = kv.2) (map_to_list (functionsByDsKey s)))))%list) /\
  functionsByDsKey s' = functionsByDsKey s /\ dataSourcesByDsKey s' = dataSourcesByDsKey s /\
  resolversByResKey s' = resolversByResKey s /\ dsKeysByResKey s' = dsKeysByResKey s /\
  w_constructs (world s') = w_constructs (world s) /\ w_next (world s') = w_next (world s).
Proof.
  intros H. unfold attachPermissions in H. rewrite bind_get in H. cbv beta in H.
  apply bind_inv in H as [(e & H1 & He) | (u & s1 & H1 & H)];
    apply (mapM_fn_attach_spec (fun _ => p) (fun kv => kv.2)) in H1 as (Hr & Hs & Hn & Hc & Hg);
    [discriminate|].
  cbv [modify] in H. injection H as <- <-.
  rewrite Hs. cbn [set_permissions set_world world functionsByDsKey dataSourcesByDsKey
                   resolversByResKey dsKeysByResKey permissionsAttachedForAllFunctions].
  rewrite Hs in Hn, Hc, Hg. cbn [world set_world] in Hn, Hc, Hg.
  split; [reflexivity|]. split; [reflexivity|]. split; [|repeat split; assumption].
  intros h. rewrite Hg. f_equal.
  generalize (filter (fun kv : string * FnHandle => h = kv.2) (map_to_list (functionsByDsKey s))).
  intros l. induction l as [|x l IH]; [reflexivity|]. simpl. rewrite IH. reflexivity.
Qed.

Lemma attachPermissions_per_registry_key_witness :
  grants_of (world shared_fn_api) 0 = [] /\
  grants_of (world (snd (attachPermissions "s3" shared_fn_api))) 0 = ["s3"; "s3"].
Proof.
  split; [vm_compute; reflexivity|].
  destruct (attachPermissions_per_registry_key "s3" shared_fn_api _ _ (surjective_pairing _))
    as (_ & _ & Hg & _).
  rewrite Hg. vm_compute. reflexivity.
Defined.

(** A successful [addDataSource k v] registers one data source under [k],
    found by [getDataSource k]. Its kind follows the order of the code's
    checks: a truthy [function] (an existing [Function], a props object,
    or a non-empty handler path) gives a Lambda data source. Otherwise
    [table] gives DynamoDB, then [rds] gives RDS, then a truthy [endpoint]
    gives HTTP, and anything else gives Lambda. A Lambda data source's
    function is returned and registered under [k]. The other kinds leave
    the function registry unchanged. *)
Theorem addDataSource_registers_by_kind sc k v s out s' :
  addDataSource sc k v s = (inr out, s') ->
  exists d, dataSourcesByDsKey s' = <[k:=d]> (dataSourcesByDsKey s) /\
    getDataSource s' k = JOwn d /\
    match truthy_function (v_function v) with
    | Some _ => exists l, out = Some l /\ ds_kind d = DSLambda l /\
                functionsByDsKey s' = <[k:=l]> (functionsByDsKey s) /\ getFunction s' k = JOwn l
    | None =>
        if v_table v then ds_kind d = DSDynamoDb /\ out = None /\ functionsByDsKey s' = functionsByDsKey s
        else if v_rds v then ds_kind d = DSRds /\ out = None /\ functionsByDsKey s' = functionsByDsKey s
        else if truthy (v_endpoint v) then
          ds_kind d = DSHttp /\ out = None /\ functionsByDsKey s' = functionsByDsKey s
        else exists l, out = Some l /\ ds_kind d = DSLambda l /\
               functionsByDsKey s' = <[k:=l]> (functionsByDsKey s) /\ getFunction s' k = JOwn l
    end.
Proof.
  intros H. run_addDataSource H v.
  all: cbn [v_function v_table v_rds v_endpoint truthy].
  all: try match goal with E : truthy_function (o_function _) = _ |- _ => rewrite E end.
  all: cbn [truthy_function]; cbv iota beta.
  all: repeat match goal with E : ?b = _ |- context [if ?b then _ else _] => rewrite E; cbv iota end.
  all: eexists; split; [reflexivity|];
       split; [unfold getDataSource; simpl_api; rewrite js_get_insert_eq; reflexivity|].
  all: first
    [ split; [assumption|]; split; reflexivity
    | eexists; split; [reflexivity|]; split; [assumption|]; split; [reflexivity|];
      unfold getFunction; simpl_api; rewrite js_get_insert_eq; reflexivity ].
Qed.

Lemma addDataSource_registers_by_kind_witness :
  exists out s',
    addDataSource "App" "tbl" (VObject empty_handler_table_obj) demo_api = (inr out, s') /\
    out = None /\ exists d, getDataSource s' "tbl" = JOwn d /\ ds_kind d = DSDynamoDb.
Proof.
  destruct (addDataSource "App" "tbl" (VObject empty_handler_table_obj) demo_api)
    as [[e|out] s'] eqn:E; [vm_compute in E; discriminate|].
  exists out, s'. split; [reflexivity|].
  destruct (addDataSource_registers_by_kind _ _ _ _ _ _ E) as (d & _ & Hg & Hk).
  cbn [v_function v_table truthy_function empty_handler_table_obj o_function o_table String.eqb]
    in Hk.
  destruct Hk as (Hk & Ho & _). split; [exact Ho|]. exists d. split; assumption.
Defined.

(** A successful [addResolver key v] needs a key that normalises to
    "typeName fieldName" with a non-empty field name. [getResolver key]
    then finds a resolver for that type and field. The key's recorded
    data-source key names the resolver's data source. An inline Lambda
    resolver registers its function under [LambdaDS_typeName_fieldName].
    Binding to an existing data source leaves both registries unchanged.
    No other key's resolver changes. *)
Theorem addResolver_registers_resolver sc key v s out s' :
  addResolver sc key v s = (inr out, s') ->
  exists t f res K, valid_resolver_key key t f /\
    getResolver s' key = JOwn res /\ res_typeName res = t /\ res_fieldName res = f /\
    dsKeysByResKey s' !! normalizeResolverKey key = Some K /\
    res_dataSource res = dataSourcesByDsKey s' !! K /\
    match out with
    | Some l => K = buildDataSourceKey t f /\ functionsByDsKey s' !! K = Some l
    | None => functionsByDsKey s' = functionsByDsKey s /\
              dataSourcesByDsKey s' = dataSourcesByDsKey s
    end /\
    (forall key', normalizeResolverKey key' <> normalizeResolverKey key ->
       getResolver s' key' = getResolver s key').
Proof.
  intros H. run_addResolver H key v.
  all: do 4 eexists; split; [split; [eassumption | apply String.eqb_neq; assumption]|].
  all: split; [unfold getResolver; simpl_api; rewrite js_get_insert_eq; reflexivity|].
  all: split; [reflexivity|]; split; [reflexivity|].
  all: split; [rewrite lookup_insert_eq; reflexivity|].
  all: split; [match goal with Hd : res_dataSource _ = _ |- _ => rewrite Hd end;
               rewrite ?js_own_get, ?lookup_insert_eq; reflexivity|].
  all: split; [first [split; reflexivity | split; [reflexivity | rewrite lookup_insert_eq; reflexivity]]|].
  all: intros key' Hne; unfold getResolver; simpl_api; rewrite js_get_insert_ne by congruence;
       reflexivity.
Qed.

Lemma addResolver_registers_resolver_witness :
  exists out s', addResolver "App" "Mutation   addNote" (VString "src/add.main") demo_api = (inr out, s') /\
  exists t f res K, valid_resolver_key "Mutation   addNote" t f /\
    getResolver s' "Mutation   addNote" = JOwn res /\ res_typeName res = t /\ res_fieldName res = f /\
    dsKeysByResKey s' !! normalizeResolverKey "Mutation   addNote" = Some K /\
    res_dataSource res = dataSourcesByDsKey s' !! K /\
    match out with
    | Some l => K = buildDataSourceKey t f /\ functionsByDsKey s' !! K = Some l
    | None => functionsByDsKey s' = functionsByDsKey demo_api /\
              dataSourcesByDsKey s' = dataSourcesByDsKey demo_api
    end /\
    (forall key', normalizeResolverKey key' <> normalizeResolverKey "Mutation   addNote" ->
       getResolver s' key' = getResolver demo_api key').
Proof.
  destruct (addResolver "App" "Mutation   addNote" (VString "src/add.main") demo_api) as [[e|out] s'] eqn:E;
    [vm_compute in E; discriminate|].
  exists out, s'. split; [reflexivity|].
  exact (addResolver_registers_resolver _ _ _ _ _ _ E).
Defined.


Lemma match_both fns dss K l d :
  ds_kind d = DSLambda l -> fn_ds_match_maps fns dss ->
  fn_ds_match_maps (<[K:=l]> fns) (<[K:=d]> dss).
Proof.
  intros Hd Hm K' l'. destruct (decide (K' = K)) as [->|Hne].
  - rewrite !lookup_insert_eq. split.
    + intros E. injection E as <-. eauto.
    + intros (d' & E & Hk). injection E as <-. rewrite Hd in Hk. injection Hk as <-. reflexivity.
  - rewrite !lookup_insert_ne by congruence. apply Hm.
Qed.

Lemma match_ds fns dss K d :
  (forall l, ds_kind d <> DSLambda l) -> fns !! K = None -> fn_ds_match_maps fns dss ->
  fn_ds_match_maps fns (<[K:=d]> dss).
Proof.
  intros Hd HK Hm K' l'. destruct (decide (K' = K)) as [->|Hne].
  - rewrite lookup_insert_eq, HK. split; [discriminate|].
    intros (d' & E & Hk). injection E as <-. contradiction (Hd l' Hk).
  - rewrite lookup_insert_ne by congruence. apply Hm.
Qed.

Lemma addDataSource_fn_ds_match sc k v s r s' :
  reg_inv s -> fn_ds_match s -> addDataSource sc k v s = (r, s') -> fn_ds_match s'.
Proof.
  intros Hi Hm H. run_addDataSource H v.
  all: unfold fn_ds_match in *; simpl_api.
  all: try exact Hm.
  all: try (apply match_both; assumption).
  all: match goal with
       | |- fn_ds_match_maps ?F (<[?K:=_]> _) =>
           apply match_ds; [ intros ?; match goal with E : ds_kind _ = _ |- _ => rewrite E end;
                             discriminate
                           | destruct (F !! K) eqn:EK; [|reflexivity]; exfalso;
                             match goal with Hn : (_, sanitizeId K) ∉ _ |- _ => apply Hn end;
                             refine (proj1 (Hi K _)); right; apply elem_of_dom; eauto
                           | exact Hm ]
       end.
Qed.

Lemma addResolver_fn_ds_match sc key v s r s' :
  fn_ds_match s -> addResolver sc key v s = (r, s') -> fn_ds_match s'.
Proof.
  intros Hm H. run_addResolver H key v.
  all: unfold fn_ds_match in *; simpl_api.
  all: first [ exact Hm | apply match_both; assumption ].
Qed.


Lemma createResolver_new ds t f props s res s' :
  createResolver ds t f props s = (inr res, s') ->
  ((api_scope s, resolver_id t f) ∉ w_constructs (world s)) /\
  (api_scope s, resolver_id t f) ∈ w_constructs (world s').
Proof.
  intros H. apply createResolver_spec in H as (_ & _ & _ & _ & Hres).
  destruct Hres as [(? & Heq & _ & _ & _ & _ & _ & _ & ? & ?) | [(_ & Heq) | (? & Heq & _)]];
    [split; assumption | discriminate | discriminate].
Qed.

(** Run [addResolver], keeping what a successful [createResolver] adds. *)
Ltac run_addResolver_new H key v :=
  unfold addResolver in H; cbv zeta in H;
  let Hsp := fresh "Hsp" in
  destruct (split_sp (normalizeResolverKey key)) as [|?t [|?f [|? ?]]] eqn:Hsp;
  [exec H; prim | exec H; prim |
   (destruct v as [?str|?fn|?o];
   [| | let Ho := fresh "Ho" in let Hd := fresh "Hd" in
        destruct (o_function o) eqn:Ho; [|destruct (o_dataSource o) eqn:Hd]];
   cbn [v_function v_dataSource as_function_definition] in H;
   try match goal with E : o_function _ = _ |- _ => rewrite E in H end;
   try match goal with E : o_dataSource _ = _ |- _ => rewrite E in H end;
   exec H; prim;
   try match goal with Hc : createResolver _ _ _ _ _ = (inr _, _) |- _ =>
         pose proof (createResolver_new _ _ _ _ _ _ _ Hc) end;
   provider; prim; simpl_api; split_hyps; prim)
  | exec H; prim].

Lemma resolver_inv_step s s' :
  resolver_inv s -> api_scope s' = api_scope s ->
  w_constructs (world s) ⊆ w_constructs (world s') ->
  dom (dsKeysByResKey s) ⊆ dom (dsKeysByResKey s') ->
  (resolversByResKey s' = resolversByResKey s \/
   exists nk x, (resolversByResKey s' = <[nk:=x]> (resolversByResKey s) /\ normalizeResolverKey nk = nk /\
    split_sp nk = [res_typeName x; res_fieldName x] /\ res_fieldName x <> "" /\
    nk ∈ dom (dsKeysByResKey s') /\
    (api_scope s, resolver_id (res_typeName x) (res_fieldName x)) ∈ w_constructs (world s'))) ->
  resolver_inv s'.
Proof.
  intros Hr Ha Hc Hd Hx k res Hk. rewrite Ha.
  destruct Hx as [E | (nk & x & E & Hn & Hs & Hf & Hkd & Hin)]; rewrite E in Hk.
  - destruct (Hr k res Hk) as (? & ? & ? & ? & ?). repeat split; [assumption..| |]; set_solver.
  - destruct (decide (k = nk)) as [->|Hne].
    + rewrite lookup_insert_eq in Hk. injection Hk as <-. auto.
    + rewrite lookup_insert_ne in Hk by congruence.
      destruct (Hr k res Hk) as (? & ? & ? & ? & ?). repeat split; [assumption..| |]; set_solver.
Qed.

Lemma addResolver_resolver_inv sc key v s r s' :
  resolver_inv s -> addResolver sc key v s = (r, s') -> resolver_inv s'.
Proof.
  intros Hr H. run_addResolver_new H key v.
  all: try exact Hr.
  all: eapply (resolver_inv_step s); [exact Hr | reflexivity
       | unfold wgrow in *; split_hyps; simpl_api; set_solver
       | simpl_api; rewrite ?dom_insert_L; set_solver |].
  all: first
    [ left; reflexivity
    | right; do 2 eexists; simpl_api; split; [reflexivity|]; split; [apply normalize_idem|];
      split; [assumption|]; split; [apply String.eqb_neq; assumption|];
      split; [rewrite dom_insert_L; set_solver|];
      first [assumption | unfold wgrow in *; split_hyps; simpl_api; set_solver] ].
Qed.

Lemma api_inv_world s w :
  api_inv s -> w_constructs (world s) ⊆ w_constructs w -> api_inv (set_world w s).
Proof.
  intros (Hi & Hm & Hr) Hc. split; [exact (reg_inv_step _ _ Hi (reg_step_world s w Hc))|].
  split; [exact Hm|]. apply (resolver_inv_step s); [exact Hr | reflexivity | exact Hc | set_solver |].
  left. reflexivity.
Qed.

Lemma addDataSource_api_inv sc k v s r s' :
  api_inv s -> addDataSource sc k v s = (r, s') -> api_inv s'.
Proof.
  intros (Hi & Hm & Hr) H. split; [exact (reg_inv_step _ _ Hi (addDataSource_reg_step _ _ _ _ _ _ H))|].
  split; [exact (addDataSource_fn_ds_match _ _ _ _ _ _ Hi Hm H)|].
  apply addDataSource_spec in H as (Hres & Hk & _ & _ & Ha & (Hc & _) & _).
  apply (resolver_inv_step s); [exact Hr | exact Ha | exact Hc | rewrite Hk; set_solver |].
  left. exact Hres.
Qed.

Lemma addResolver_api_inv sc key v s r s' :
  api_inv s -> addResolver sc key v s = (r, s') -> api_inv s'.
Proof.
  intros (Hi & Hm & Hr) H. split; [exact (reg_inv_step _ _ Hi (addResolver_reg_step _ _ _ _ _ _ H))|].
  split; [exact (addResolver_fn_ds_match _ _ _ _ _ _ Hm H)|].
  exact (addResolver_resolver_inv _ _ _ _ _ _ Hr H).
Qed.

Lemma fn_attachPermissions_api_inv p f s r s' :
  api_inv s -> fn_attachPermissions p f s = (r, s') -> api_inv s'.
Proof. intros Hs H. apply fn_attachPermissions_inv in H as [_ ->]. apply api_inv_world; [exact Hs | set_solver]. Qed.

Lemma attachExisting_api_inv fn s r s' :
  api_inv s -> attachExisting fn s = (r, s') -> api_inv s'.
Proof.
  intros Hs H. pose proof (attachExisting_reg_step _ _ _ _ H) as (_ & Hc & _).
  apply attachExisting_spec in H as (_ & Hw & _). rewrite Hw. apply api_inv_world; assumption.
Qed.

Lemma attachPermissions_api_inv p s r s' :
  api_inv s -> attachPermissions p s = (r, s') -> api_inv s'.
Proof.
  intros Hs H. unfold attachPermissions in H. rewrite bind_get in H. cbv beta in H.
  apply bind_inv in H as [(e & H1 & _) | (u & s1 & H1 & H)];
    pose proof H1 as H1'; apply (mapM_fn_attach_spec (fun _ => p) (fun kv => kv.2)) in H1 as (Hr & Hw & _ & Hc & _);
    [discriminate|].
  cbv [modify] in H. injection H as _ <-.
  assert (Hs1 : api_inv s1) by (rewrite Hw; apply api_inv_world; [exact Hs | rewrite Hc; set_solver]).
  exact Hs1.
Qed.

Lemma attachPermissionsToDataSource_api_inv k p s r s' :
  api_inv s -> attachPermissionsToDataSource k p s = (r, s') -> api_inv s'.
Proof.
  intros Hs H. unfold attachPermissionsToDataSource in H. rewrite bind_get in H. cbv beta in H.
  destruct (getFunction s k); [exact (fn_attachPermissions_api_inv _ _ _ _ _ Hs H)|..];
    injection H as _ <-; exact Hs.
Qed.


Lemma run_op_api_inv op s r s' : api_inv s -> run_op op s = (r, s') -> api_inv s'.
Proof.
  intros Hs H. revert Hs. revert H.
  destruct op as [sc l|sc l|p|k p]; simpl.
  - apply (batch_rel (fun s s' => api_inv s -> api_inv s') (fun s H => H)
             (fun s1 s2 s3 H12 H23 H => H23 (H12 H)) (addDataSource sc));
      [reflexivity | reflexivity | |].
    + intros k v s1 r1 s2 H Hs. exact (addDataSource_api_inv _ _ _ _ _ _ Hs H).
    + intros fn s1 r1 s2 H Hs. exact (attachExisting_api_inv _ _ _ _ Hs H).
  - apply (batch_rel (fun s s' => api_inv s -> api_inv s') (fun s H => H)
             (fun s1 s2 s3 H12 H23 H => H23 (H12 H)) (addResolver sc));
      [reflexivity | reflexivity | |].
    + intros k v s1 r1 s2 H Hs. exact (addResolver_api_inv _ _ _ _ _ _ Hs H).
    + intros fn s1 r1 s2 H Hs. exact (attachExisting_api_inv _ _ _ _ Hs H).
  - intros H Hs. exact (attachPermissions_api_inv _ _ _ _ Hs H).
  - intros H Hs. exact (attachPermissionsToDataSource_api_inv _ _ _ _ _ Hs H).
Qed.

Lemma construct_api_inv self apiScope w defaults dss rs r s :
  construct self apiScope w defaults dss rs = (r, s) -> api_inv s.
Proof.
  unfold construct. intros H.
  assert (H0 : api_inv (init_api apiScope w defaults)).
  { split; [|split].
    - intros K [HK|HK]; simpl in HK; set_solver.
    - intros K l. simpl. rewrite !lookup_empty. split; [discriminate|].
      intros (d & E & _). discriminate.
    - intros k res Hk. simpl in Hk. rewrite lookup_empty in Hk. discriminate. }
  revert H0. revert H.
  apply (bind_rel (fun s s' => api_inv s -> api_inv s') (fun s1 s2 s3 H12 H23 H => H23 (H12 H))).
  - intros r0 s0. apply (mapM__rel (fun s s' => api_inv s -> api_inv s') (fun s H => H)
                           (fun s1 s2 s3 H12 H23 H => H23 (H12 H))).
    intros kv s1 r1 s2.
    apply (bind_rel (fun s s' => api_inv s -> api_inv s') (fun s1 s2 s3 H12 H23 H => H23 (H12 H)));
      [intros r3 s3 H3 Hs; exact (addDataSource_api_inv _ _ _ _ _ _ Hs H3)|].
    intros _ s3 r3 s4 _ E. injection E as _ <-. auto.
  - intros _ s1 r1 s2 _. apply (mapM__rel (fun s s' => api_inv s -> api_inv s') (fun s H => H)
                                  (fun s1 s2 s3 H12 H23 H => H23 (H12 H))).
    intros kv s3 r3 s4.
    apply (bind_rel (fun s s' => api_inv s -> api_inv s') (fun s1 s2 s3 H12 H23 H => H23 (H12 H)));
      [intros r5 s5 H5 Hs; exact (addResolver_api_inv _ _ _ _ _ _ Hs H5)|].
    intros _ s5 r5 s6 _ E. injection E as _ <-. auto.
Qed.

Lemma reachable_api_inv s : reachable s -> api_inv s.
Proof.
  induction 1 as [??????? H | s op r s' _ IH H].
  - exact (construct_api_inv _ _ _ _ _ _ _ _ H).
  - exact (run_op_api_inv _ _ _ _ IH H).
Qed.

Lemma is_space_eq c : is_space c = true -> c = " "%char.
Proof.
  unfold is_space. intros H. apply Nat.eqb_eq in H.
  rewrite <- (ascii_nat_embedding c), H. reflexivity.
Qed.

Lemma split_sp_not_nil s : split_sp s <> [].
Proof. destruct s as [|c s]; simpl; [congruence|]. destruct (is_space c); [congruence|].
  destruct (split_sp s); simpl; congruence. Qed.

Lemma join_split_sp s : join_sp (split_sp s) = s.
Proof.
  induction s as [|c s IH]; [reflexivity|]. simpl. destruct (is_space c) eqn:Hc.
  - rewrite join_cons_empty by apply split_sp_not_nil. rewrite IH, (is_space_eq c Hc). reflexivity.
  - rewrite join_prepend by apply split_sp_not_nil. rewrite IH. reflexivity.
Qed.

Lemma split_sp_member k : k ∈ object_prototype_members -> split_sp k = [k].
Proof.
  intros Hk. repeat (apply elem_of_cons in Hk as [->|Hk]; [vm_compute; reflexivity|]).
  apply elem_of_nil in Hk. contradiction.
Qed.

Lemma split_sp_two s t f : split_sp s = [t; f] -> s = t ++ " " ++ f.
Proof. intros H. rewrite <- (join_split_sp s), H. reflexivity. Qed.

Lemma addResolver_ok_new sc key v s out s' :
  addResolver sc key v s = (inr out, s') ->
  exists t f, split_sp (normalizeResolverKey key) = [t; f] /\
    (api_scope s, resolver_id t f) ∉ w_constructs (world s).
Proof.
  intros H. run_addResolver_new H key v.
  all: do 2 eexists; split; [reflexivity|].
  all: first [assumption | intros Hin; unfold wgrow in *; split_hyps; simpl_api;
    match goal with Hn : (_, resolver_id _ _) ∉ _ |- _ => apply Hn end; set_solver].
Qed.

(** In every app built by the constructor and the public methods, the
    function registry holds under a key [K] exactly the function of the
    Lambda data source registered under [K]. Keys with no data source or
    a non-Lambda one have no function. *)
Theorem reachable_functions_are_lambda_dataSources s :
  reachable s -> forall K l,
  functionsByDsKey s !! K = Some l <->
  exists d, dataSourcesByDsKey s !! K = Some d /\ ds_kind d = DSLambda l.
Proof. intros Hs. apply (reachable_api_inv s Hs). Qed.

(** In every app built by the constructor and the public methods, each
    registered resolver sits under the key "typeName fieldName" of its own
    type and field, with a non-empty field name. [getResolver] finds it
    under that key, and the key has a recorded data-source key. *)
Theorem reachable_resolver_keys s k res :
  reachable s -> resolversByResKey s !! k = Some res ->
  k = res_typeName res ++ " " ++ res_fieldName res /\ res_fieldName res <> "" /\
  getResolver s k = JOwn res /\ k ∈ dom (dsKeysByResKey s).
Proof.
  intros Hs Hk. destruct (reachable_api_inv s Hs) as (_ & _ & Hr).
  destruct (Hr k res Hk) as (Hn & Hsp & Hf & Hd & _).
  split; [exact (split_sp_two _ _ _ Hsp)|]. split; [exact Hf|]. split; [|exact Hd].
  unfold getResolver. rewrite Hn. apply js_get_own. exact Hk.
Qed.

(** In every app built by the constructor and the public methods, adding
    a resolver under a key that already has one (in any spacing) throws
    and leaves the resolver registry as it was. *)
Theorem addResolver_never_replaces s sc key v r s' :
  reachable s -> getResolver s key <> JUndefined -> addResolver sc key v s = (r, s') ->
  (exists e, r = inl e) /\ resolversByResKey s' = resolversByResKey s.
Proof.
  intros Hs Hg H. destruct r as [e|o].
  - split; [eauto|]. apply addResolver_spec in H as (_ & _ & _ & _ & _ & He & _). exact (He e eq_refl).
  - exfalso. destruct (addResolver_ok_new _ _ _ _ _ _ H) as (t & f & Hsp & Hn).
    destruct (reachable_api_inv s Hs) as (_ & _ & Hr). unfold getResolver, js_get in Hg.
    destruct (resolversByResKey s !! normalizeResolverKey key) as [res|] eqn:E;
      [|case_bool_decide as Hm; [rewrite (split_sp_member _ Hm) in Hsp; discriminate | congruence]].
    destruct (Hr _ _ E) as (_ & Hsp' & _ & _ & Hc).
    rewrite Hsp in Hsp'. injection Hsp' as -> ->. exact (Hn Hc).
Qed.

Lemma reachable_functions_are_lambda_dataSources_witness :
  exists l, functionsByDsKey demo_api !! "notesDS" = Some l /\
  exists d, dataSourcesByDsKey demo_api !! "notesDS" = Some d /\ ds_kind d = DSLambda l.
Proof.
  destruct (functionsByDsKey demo_api !! "notesDS") as [l|] eqn:E; [|vm_compute in E; discriminate].
  exists l. split; [reflexivity|].
  apply (reachable_functions_are_lambda_dataSources demo_api demo_api_reachable). exact E.
Defined.

Lemma reachable_resolver_keys_witness :
  exists res, resolversByResKey demo_api !! "Query listNotes" = Some res /\
  "Query listNotes" = res_typeName res ++ " " ++ res_fieldName res /\ res_fieldName res <> "" /\
  getResolver demo_api "Query listNotes" = JOwn res /\ "Query listNotes" ∈ dom (dsKeysByResKey demo_api).
Proof.
  destruct (resolversByResKey demo_api !! "Query listNotes") as [res|] eqn:E;
    [|vm_compute in E; discriminate].
  exists res. split; [reflexivity|].
  apply (reachable_resolver_keys demo_api "Query listNotes" res demo_api_reachable E).
Defined.

Lemma addResolver_never_replaces_witness :
  getResolver demo_api "Query   listNotes" <> JUndefined /\
  (exists e, fst (addResolver "App" "Query   listNotes" (VString "notesDS") demo_api) = inl e) /\
  resolversByResKey (snd (addResolver "App" "Query   listNotes" (VString "notesDS") demo_api)) =
  resolversByResKey demo_api.
Proof.
  split; [vm_compute; congruence|].
  apply (addResolver_never_replaces demo_api "App" "Query   listNotes" (VString "notesDS"));
    [exact demo_api_reachable | vm_compute; congruence | apply surjective_pairing].
Defined.
